(** * Stocks & ETFs client: caching, normalisation, logo resolution, watchlist

    A shallow embedding of the data-handling code of the Expo / React Native
    client:

    - [src/app/(app)/index.tsx]: [candidateImageUris], [StockLogo],
      [debouncedSearch], [prefetchImages], [mapStock], [updateStockImages];
    - [src/app/(app)/watchlist.tsx]: [loadGroups], [deleteGroup],
      [loadDetails].

    The module [app/api/alphaVantage.js] (the 24h cache and the upstream
    client) is imported by both screens but is not part of the sources at
    hand; its cache is modelled from the specification in [TTLCache].

    Conventions.
    - Values of TypeScript type [any] (parsed JSON) are [JsValue]s; the
      JavaScript coercions the code relies on ([!x], [a || b], [String(x)],
      property access) are written out.
    - JavaScript strings are modelled as [string] (byte strings);
      [toUpperCase] acts on the ASCII letters.
    - An [async] function is a computation in the monad [IO]: it may read the
      outcome of an external call (network, image cache) from an [Network]
      oracle, appends every external call to a log, and completes normally or
      by throwing.  *)

From Stdlib Require Import ZArith QArith Ascii Lia.
From stdpp Require Import base option list gmap strings relations.

#[local] Set Warnings "-register-all,-clear-no-such-hyp".
Local Open Scope Z_scope.
Local Open Scope stdpp_scope.

(* ===================================================================== *)
(** * JavaScript values and strings *)
(* ===================================================================== *)

Module Js.

(** Parsed JSON, plus [undefined]. *)
Inductive JsValue : Type :=
| JUndefined
| JNull
| JBool (b : bool)
| JNumber (n : Q)
| JString (s : string)
| JArray (items : list JsValue)
| JObject (fields : list (string * JsValue)).

(** What a [throw] or a rejected promise carries. *)
Inductive JsError : Type :=
| TypeError
| SyntaxError
| NetworkError
| StorageError
| OtherError (msg : string).

(** Completion of a piece of code: a value, or an abrupt [throw]. *)
Inductive Completion (A : Type) : Type :=
| Normal (a : A)
| Throw (e : JsError).
Arguments Normal {A} a.
Arguments Throw {A} e.

Definition is_normal {A} (c : Completion A) : bool :=
  match c with Normal _ => true | Throw _ => false end.

(** [ToBoolean]: the falsy values are [undefined], [null], [false], [0],
    [NaN] (not a JSON value) and the empty string. *)
Definition truthy (v : JsValue) : bool :=
  match v with
  | JUndefined | JNull => false
  | JBool b => b
  | JNumber n => negb (Qeq_bool n 0)
  | JString s => negb (String.eqb s "")
  | JArray _ | JObject _ => true
  end.

(** [a || b] on values (both operands here are side-effect free). *)
Definition js_or (a b : JsValue) : JsValue := if truthy a then a else b.

(** Own-property lookup in an object literal. *)
Fixpoint assoc (k : string) (fields : list (string * JsValue)) : option JsValue :=
  match fields with
  | [] => None
  | (k', v) :: rest => if String.eqb k k' then Some v else assoc k rest
  end.

(** [v.k] / [v["k"]] for a data property name [k] (none of the names used
    by the code is an array index, [length], or a prototype member):
    [undefined] and [null] throw a [TypeError], objects look the key up,
    every other value has no such property. *)
Definition get_prop (v : JsValue) (k : string) : Completion JsValue :=
  match v with
  | JUndefined | JNull => Throw TypeError
  | JObject fields => Normal (default JUndefined (assoc k fields))
  | _ => Normal JUndefined
  end.

(** [Array.isArray(v)]. *)
Definition isArray (v : JsValue) : bool :=
  match v with JArray _ => true | _ => false end.

(** [v == null] (loose): true of [null] and [undefined] only. *)
Definition loose_null (v : JsValue) : bool :=
  match v with JUndefined | JNull => true | _ => false end.

(** ** Strings *)

Definition upper_ascii (c : ascii) : ascii :=
  let n := nat_of_ascii c in
  if ((97 <=? n)%nat && (n <=? 122)%nat)%bool then ascii_of_nat (n - 32) else c.

(** [s.toUpperCase()]. *)
Fixpoint toUpperCase (s : string) : string :=
  match s with
  | EmptyString => EmptyString
  | String c s' => String (upper_ascii c) (toUpperCase s')
  end.

(** [s.replace(/c/g, d)] for single characters [c], [d]. *)
Fixpoint replaceAll (c d : ascii) (s : string) : string :=
  match s with
  | EmptyString => EmptyString
  | String x s' => String (if Ascii.eqb x c then d else x) (replaceAll c d s')
  end.

(** [s.split(c)[0]]: the part of [s] before the first [c], all of [s] when
    [c] does not occur. *)
Fixpoint split_head (c : ascii) (s : string) : string :=
  match s with
  | EmptyString => EmptyString
  | String x s' => if Ascii.eqb x c then EmptyString else String x (split_head c s')
  end.

(** [Array.from(new Set(l))]: the first occurrence of every element, in
    insertion order. *)
Fixpoint set_from (seen l : list string) : list string :=
  match l with
  | [] => []
  | x :: l' =>
      if decide (x ∈ seen) then set_from seen l' else x :: set_from (x :: seen) l'
  end.

(** [l.filter(Boolean)] on strings. *)
Definition filter_Boolean (l : list string) : list string :=
  List.filter (fun s => negb (String.eqb s "")) l.

(** [l.join(",")]. *)
Fixpoint join_comma (l : list string) : string :=
  match l with
  | [] => ""
  | [x] => x
  | x :: rest => x +:+ "," +:+ join_comma rest
  end.

Section Conversions.
(** [String(n)] for a number: left abstract. *)
Variable Number_toString : Q -> string.

(** [String(v)]. Inside an array, [null] and [undefined] print as the
    empty string. *)
Fixpoint js_String (v : JsValue) : string :=
  match v with
  | JUndefined => "undefined"
  | JNull => "null"
  | JBool true => "true"
  | JBool false => "false"
  | JNumber n => Number_toString n
  | JString s => s
  | JArray items =>
      join_comma
        (List.map (fun x => match x with
                            | JUndefined | JNull => ""
                            | _ => js_String x
                            end) items)
  | JObject _ => "[object Object]"
  end.
End Conversions.

(** The number formatting of the JavaScript runtime, left abstract:
    [String(n)] and [Number(v).toFixed(2)]. *)
Record Runtime : Type := {
  Number_toString : Q -> string;
  Number_toFixed2 : JsValue -> string;
}.

#[export] Instance Completion_ret : MRet Completion := fun _ a => Normal a.
#[export] Instance Completion_bind : MBind Completion :=
  fun _ _ k c => match c with Normal a => k a | Throw e => Throw e end.

(** [s.k1 || s.k2 || ... || dflt], evaluated left to right; a property is
    read only when everything before it was falsy. *)
Fixpoint first_truthy (s : JsValue) (keys : list string) (dflt : JsValue)
  : Completion JsValue :=
  match keys with
  | [] => Normal dflt
  | k :: ks =>
      v ← get_prop s k;
      if truthy v then Normal v else first_truthy s ks dflt
  end.

(** [v.toUpperCase()]: only strings have the method. *)
Definition call_toUpperCase (v : JsValue) : Completion string :=
  match v with
  | JString s => Normal (toUpperCase s)
  | _ => Throw TypeError
  end.

(** [l[i]] for a number [i]: [undefined] outside the array. *)
Definition js_index {A} (l : list A) (i : Z) : option A :=
  if i <? 0 then None else l !! Z.to_nat i.

End Js.
Export Js.

(* ===================================================================== *)
(** * Asynchronous code: external calls, their log, exceptions *)
(* ===================================================================== *)

Module Async.

(** A call that leaves the program. *)
Inductive Event : Type :=
| EvPrefetch (url : string)          (* Image.prefetch(url) *)
| EvFetch (url : string)             (* fetch(url) *)
| EvSearchTicker (query : string)    (* searchTicker(query) *)
| EvGetCached                        (* getCachedTopGainersLosers() *)
| EvSleep (ms : Z).                  (* setTimeout(r, ms) *)

(** An HTTP response: [res.ok], and what [res.json()] settles to. *)
Record Response : Type := { ok : bool; json : Completion JsValue }.

(** How the outside world answers.  Every answer is an arbitrary
    completion: a rejected promise is a [Throw]. *)
Record Network : Type := {
  prefetch_outcome : string -> Completion bool;
  fetch_outcome : string -> Completion Response;
  searchTicker_outcome : string -> Completion JsValue;
  getCached_outcome : Completion JsValue;
}.

(** An [async] computation: it extends the log of external calls and
    completes. *)
Definition IO (A : Type) : Type := list Event -> Completion A * list Event.

Definition ret {A} (a : A) : IO A := fun log => (Normal a, log).

Definition throw {A} (e : JsError) : IO A := fun log => (Throw e, log).

Definition bind {A B} (m : IO A) (k : A -> IO B) : IO B :=
  fun log =>
    match m log with
    | (Normal a, log') => k a log'
    | (Throw e, log') => (Throw e, log')
    end.

(** [try { m } catch { h }]. *)
Definition try_catch {A} (m : IO A) (h : IO A) : IO A :=
  fun log =>
    match m log with
    | (Normal a, log') => (Normal a, log')
    | (Throw _, log') => h log'
    end.

(** A synchronous completion inside an [async] body. *)
Definition lift {A} (c : Completion A) : IO A := fun log => (c, log).

(** An awaited external call: logged, then answered by the oracle. *)
Definition call {A} (e : Event) (answer : Completion A) : IO A :=
  fun log => (answer, log ++ [e]).

Declare Scope io_scope.
Delimit Scope io_scope with io.
Notation "x <- m ;; k" := (bind m (fun x => k))
  (at level 100, m at next level, right associativity) : io_scope.
Notation "m ;;; k" := (bind m (fun _ => k))
  (at level 100, right associativity) : io_scope.

(** [await Promise.all(xs.map(f))].  Every member is started and runs to
    its end whatever happens to the others; the batch resolves to the list
    of results when all members resolve, and rejects with the first
    rejection otherwise.  The oracle answers by request, not by time, so
    running the members one after the other loses nothing. *)
Fixpoint Promise_all_map {A B} (f : A -> IO B) (xs : list A) : IO (list B) :=
  match xs with
  | [] => ret []
  | x :: rest =>
      fun log =>
        match f x log with
        | (Normal b, log1) =>
            match Promise_all_map f rest log1 with
            | (Normal bs, log2) => (Normal (b :: bs), log2)
            | (Throw e, log2) => (Throw e, log2)
            end
        | (Throw e, log1) =>
            (Throw e, snd (Promise_all_map f rest log1))
        end
  end.

Section Calls.
Variable net : Network.

Definition Image_prefetch (url : string) : IO bool :=
  call (EvPrefetch url) (prefetch_outcome net url).

Definition fetch (url : string) : IO Response :=
  call (EvFetch url) (fetch_outcome net url).

Definition searchTicker (query : string) : IO JsValue :=
  call (EvSearchTicker query) (searchTicker_outcome net query).

Definition getCachedTopGainersLosers : IO JsValue :=
  call EvGetCached (getCached_outcome net).

Definition sleep (ms : Z) : IO unit := call (EvSleep ms) (Normal tt).
End Calls.

End Async.
Export Async.

(* ===================================================================== *)
(** * Logo resolution ([index.tsx]) *)
(* ===================================================================== *)

Module Logo.

(** The five symbol variants, in the order of the array literal. *)
Definition variants (s : string) : list string :=
  [ s;
    replaceAll "." "-" s;
    replaceAll "-" "." s;
    split_head "." s;
    split_head "-" s ].

Definition image_url (v : string) : string :=
  "https://financialmodelingprep.com/image-stock/" +:+ v +:+ ".png".

Section CandidateImageUris.
Variable rt : Runtime.

(** [function candidateImageUris(symbol?: string)]. *)
Definition candidateImageUris (symbol : JsValue) : list string :=
  if negb (truthy symbol) then []
  else
    let s := toUpperCase (js_String (Number_toString rt) symbol) in
    List.map image_url (set_from [] (filter_Boolean (variants s))).
End CandidateImageUris.

(** ** The [StockLogo] component *)

Record Props : Type := { uri : option string; uris : option (list string) }.

(** [uris && uris.length ? uris : uri ? [uri] : []]. *)
Definition candidates (p : Props) : list string :=
  let from_uri :=
    match uri p with
    | Some u => if truthy (JString u) then [u] else []
    | None => []
    end in
  match uris p with
  | Some l => if negb (Z.of_nat (length l) =? 0) then l else from_uri
  | None => from_uri
  end.

(** The two [useState] cells. *)
Record State : Type := { idx : Z; failed : bool }.

Definition initial : State := {| idx := 0; failed := false |}.

(** What is handed to [<Image source=...>]: the bundled placeholder, or
    [{ uri: candidates[...] }], where the indexing may yield [undefined]
    ([None]). *)
Inductive Source : Type :=
| Fallback
| Remote (u : option string).

Definition src (cands : list string) (st : State) : Source :=
  if (failed st || (Z.of_nat (length cands) =? 0))%bool then Fallback
  else Remote (js_index cands (Z.min (idx st) (Z.of_nat (length cands) - 1))).

Definition onError (cands : list string) (st : State) : State :=
  if idx st <? Z.of_nat (length cands) - 1
  then {| idx := idx st + 1; failed := failed st |}
  else {| idx := idx st; failed := true |}.

(** Rendering until the image settles: the current source is shown; when it
    is a remote image that does not load, [onError] fires and the component
    renders again.  [loads u] tells whether the image at [u] loads; the
    bundled placeholder always does.  [None]: still unsettled after [fuel]
    errors. *)
Fixpoint render (loads : string -> bool) (cands : list string)
                (fuel : nat) (st : State) : option Source :=
  match src cands st with
  | Fallback => Some Fallback
  | Remote (Some u) =>
      if loads u then Some (Remote (Some u))
      else match fuel with
           | O => None
           | S fuel' => render loads cands fuel' (onError cands st)
           end
  | Remote None =>
      match fuel with
      | O => None
      | S fuel' => render loads cands fuel' (onError cands st)
      end
  end.

End Logo.

(* ===================================================================== *)
(** * The Explore screen ([index.tsx]) *)
(* ===================================================================== *)

Module Explore.
Import Logo.

(** [interface Stock].  The fields copied from the upstream record hold
    whatever value was found there. *)
Record Stock : Type := {
  name : JsValue;
  price : JsValue;
  symbol : JsValue;
  image : string;
  change : JsValue;
}.

(** [function mapStock(s: any): Stock]. *)
Definition mapStock (s : JsValue) : Completion Stock :=
  n ← first_truthy s ["name"; "symbol"; "ticker"] (JString "");
  p ← first_truthy s ["price"; "close"] (JString "");
  y ← first_truthy s ["ticker"; "symbol"; "name"] (JString "");
  c ← first_truthy s ["change"] (JString "");
  Normal {| name := n; price := p; symbol := y; image := "placeholder"; change := c |}.

(** The search cells of [ExploreScreen]. *)
Record SearchState : Type := {
  searchResults : list JsValue;
  searchLoading : bool;
  searchError : string;
}.

(** [item["1. symbol"] || item.symbol], the symbol of a search result. *)
Definition result_symbol (item : JsValue) : Completion JsValue :=
  s1 ← get_prop item "1. symbol";
  if truthy s1 then Normal s1 else get_prop item "symbol".

Section Screen.
Variable rt : Runtime.
Variable net : Network.

(** The callback wrapped by [useDebouncedCallback(..., 400)]. *)
Definition debouncedSearch (query : string) (st : SearchState) : IO SearchState :=
  if (negb (truthy (JString query)) || (Z.of_nat (String.length query) <? 1))%bool
  then
    ret {| searchResults := [];
           searchLoading := searchLoading st;
           searchError := "" |}
  else
    (st' <- try_catch
              (results <- searchTicker net query ;;
               matches <- (if truthy results
                           then lift (get_prop results "bestMatches")
                           else ret JUndefined) ;;
               match matches with
               | JArray items =>
                   ret {| searchResults := items;
                          searchLoading := true; searchError := "" |}
               | _ =>
                   ret {| searchResults := [];
                          searchLoading := true; searchError := "" |}
               end)
              (ret {| searchResults := [];
                      searchLoading := true;
                      searchError := "Search failed." |}) ;;
     ret {| searchResults := searchResults st';
            searchLoading := false;
            searchError := searchError st' |})%io.

(** The [for] loop of [prefetchImages] over [candidates[0..min(3,n)-1]]:
    stop at the first image that prefetches, wait 120ms after every
    other attempt. *)
Fixpoint prefetch_first3 (cs : list string) : IO unit :=
  match cs with
  | [] => ret tt
  | c :: rest =>
      (loaded <- try_catch (Image_prefetch net c) (ret false) ;;
       if loaded then ret tt
       else (sleep 120 ;;; prefetch_first3 rest))%io
  end.

(** One member of the batch of [prefetchImages]. *)
Definition prefetchImages_item (item : JsValue) : IO unit :=
  (sym <- lift (result_symbol item) ;;
   if negb (truthy sym) then ret tt
   else prefetch_first3 (take 3 (candidateImageUris rt sym)))%io.

(** [async function prefetchImages()]. *)
Definition prefetchImages (results : list JsValue) : IO unit :=
  try_catch
    (Promise_all_map prefetchImages_item results ;;; ret tt)%io
    (ret tt).

(** The [for (const url of candidates)] loop of [updateStockImages]. *)
Fixpoint first_prefetched (cs : list string) : IO (option string) :=
  match cs with
  | [] => ret None
  | url :: rest =>
      (loaded <- try_catch (Image_prefetch net url) (ret false) ;;
       if loaded then ret (Some url) else first_prefetched rest)%io
  end.

(** One member of the batch of [updateStockImages]. *)
Definition updateStockImages_item (stock : Stock) : IO Stock :=
  (found <- first_prefetched (candidateImageUris rt (symbol stock)) ;;
   match found with
   | Some url =>
       ret {| name := name stock; price := price stock;
              symbol := symbol stock; image := url; change := change stock |}
   | None => ret stock
   end)%io.

(** [async function updateStockImages(stocks: Stock[])]. *)
Definition updateStockImages (stocks : list Stock) : IO (list Stock) :=
  Promise_all_map updateStockImages_item stocks.
End Screen.

End Explore.

(* ===================================================================== *)
(** * The Watchlist screen ([watchlist.tsx]) *)
(* ===================================================================== *)

Module Watchlist.

(** ** Device storage *)

(** [AsyncStorage]: a persistent map from keys to text.  When the store is
    not [available] every operation rejects. *)
Record AsyncStorage : Type := {
  items : gmap string string;
  available : bool;
}.

Definition getItem (db : AsyncStorage) (key : string) : Completion (option string) :=
  if available db then Normal (items db !! key) else Throw StorageError.

Definition setItem (db : AsyncStorage) (key value : string) : Completion AsyncStorage :=
  if available db
  then Normal {| items := <[key := value]> (items db); available := true |}
  else Throw StorageError.

Definition WATCHLIST_GROUPS : string := "WATCHLIST_GROUPS".

(** ** Screen state *)

(** [groups], [selectedGroup], and the store the screen writes to. *)
Record Screen : Type := {
  groups : gmap string (list string);
  selectedGroup : option string;
  storage : AsyncStorage;
}.

(** The state a freshly mounted screen starts from. *)
Definition mounted (db : AsyncStorage) : Screen :=
  {| groups := ∅; selectedGroup := None; storage := db |}.

(** The answer to the confirmation dialog of [Alert.alert]. *)
Inductive Choice : Type := Cancel | Delete.

(** One tile of the grid of a group. *)
Record Tile : Type := { symbol : string; image : string; price : JsValue }.

Section Screen.
(** [JSON.parse] and [JSON.stringify] at the type of [groups]; [parse]
    throws ([SyntaxError]) on text that is not JSON. *)
Variable JSON_parse : string -> Completion (gmap string (list string)).
Variable JSON_stringify : gmap string (list string) -> string.
Variable rt : Runtime.
Variable net : Network.

(** [loadGroups], run once on mount:
    [try { data = getItem(..); if (data) setGroups(JSON.parse(data)) } catch {}]. *)
Definition loadGroups (st : Screen) : Completion Screen :=
  match
    (data ← getItem (storage st) WATCHLIST_GROUPS;
     match data with
     | Some text =>
         if truthy (JString text)
         then parsed ← JSON_parse text;
              Normal {| groups := parsed;
                        selectedGroup := selectedGroup st;
                        storage := storage st |}
         else Normal st
     | None => Normal st
     end)
  with
  | Normal st' => Normal st'
  | Throw _ => Normal st
  end.

(** The [onPress] handler of the dialog's [Delete] button. *)
Definition deleteGroup_onPress (group : string) (st : Screen) : Completion Screen :=
  let updated := delete group (groups st) in
  db' ← setItem (storage st) WATCHLIST_GROUPS (JSON_stringify updated);
  Normal {| groups := updated;
            selectedGroup :=
              (if decide (selectedGroup st = Some group) then None
               else selectedGroup st);
            storage := db' |}.

(** [deleteGroup(group)]: ask, and delete when the user confirms. *)
Definition deleteGroup (group : string) (answer : Choice) (st : Screen)
  : Completion Screen :=
  match answer with
  | Cancel => Normal st
  | Delete => deleteGroup_onPress group st
  end.

(** ** Prices and images of the selected group *)

Definition logo_url (upper : string) : string :=
  "https://financialmodelingprep.com/image-stock/" +:+ upper +:+ ".png".

Definition quote_url (upper : string) : string :=
  "https://financialmodelingprep.com/api/v3/quote-short/" +:+ upper.

(** [[...v]]: arrays and strings are iterable, nothing else in JSON is. *)
Definition spread (v : JsValue) : Completion (list JsValue) :=
  match v with
  | JArray l => Normal l
  | JString s => Normal (List.map (fun c => JString (String c "")) (String.list_ascii_of_string s))
  | _ => Throw TypeError
  end.

(** [all.find((s) => (s.ticker || s.symbol || s.name || '').toUpperCase() === upper)];
    [undefined] when nothing matches. *)
Fixpoint find_upper (upper : string) (all : list JsValue) : Completion JsValue :=
  match all with
  | [] => Normal JUndefined
  | s :: rest =>
      id ← first_truthy s ["ticker"; "symbol"; "name"] (JString "");
      u ← call_toUpperCase id;
      if String.eqb u upper then Normal s else find_upper upper rest
  end.

(** The price after the look-up in the cached snapshot (lines 84-94). *)
Definition cached_price (cached : JsValue) (upper : string) : Completion JsValue :=
  let price := JString "--" in
  if truthy cached then
    g ← get_prop cached "top_gainers";
    gs ← spread (js_or g (JArray []));
    l ← get_prop cached "top_losers";
    ls ← spread (js_or l (JArray []));
    found ← find_upper upper (gs ++ ls);
    if truthy found then
      price ← first_truthy found ["price"; "close"; "last"] price;
      match price with
      | JNumber _ => Normal (JString ("$" +:+ Number_toFixed2 rt price))
      | _ => Normal price
      end
    else Normal price
  else Normal price.

(** [!price || price === '--']. *)
Definition needs_quote (price : JsValue) : bool :=
  (negb (truthy price)
   || match price with JString s => String.eqb s "--" | _ => false end)%bool.

(** The quick-quote request (lines 98-104), inside its [try]. *)
Definition quick_quote (upper : string) (price : JsValue) : IO JsValue :=
  (res <- fetch net (quote_url upper) ;;
   if ok res then
     j <- lift (json res) ;;
     match j with
     | JArray arr =>
         let j0 := default JUndefined (js_index arr 0) in
         if truthy j0 then
           p <- lift (get_prop j0 "price") ;;
           if negb (loose_null p)
           then ret (JString ("$" +:+ Number_toFixed2 rt p))
           else ret price
         else ret price
     | _ => ret price
     end
   else ret price)%io.

(** One member of the batch of [loadDetails]. *)
Definition loadDetails_item (cached : JsValue) (sym : string) : IO Tile :=
  let upper := toUpperCase sym in
  let imageUrl := logo_url upper in
  (price <- lift (cached_price cached upper) ;;
   price <- (if needs_quote price
             then try_catch (quick_quote upper price) (ret price)
             else ret price) ;;
   try_catch (Image_prefetch net imageUrl ;;; ret tt) (ret tt) ;;;
   ret {| symbol := sym; image := imageUrl; price := price |})%io.

(** [async function loadDetails()] for the symbols of the selected group;
    the result is what [setSelectedStocks] receives. *)
Definition loadDetails (symbols : list string) : IO (list Tile) :=
  (cached <- try_catch (getCachedTopGainersLosers net) (ret JNull) ;;
   Promise_all_map (loadDetails_item cached) symbols)%io.

(** The effect run when [selectedGroup] or [groups] change; [None] when
    it returns at once ([if (!selectedGroup) return]). *)
Definition onSelect (st : Screen) : IO (option (list Tile)) :=
  match selectedGroup st with
  | None => ret None
  | Some g =>
      if negb (truthy (JString g)) then ret None
      else (tiles <- loadDetails (default [] (groups st !! g)) ;;
            ret (Some tiles))%io
  end.

(** [renderStock]: the image source of a tile. *)
Definition tile_source (t : Tile) : Logo.Source :=
  if truthy (JString (image t)) then Logo.Remote (Some (image t)) else Logo.Fallback.
End Screen.

End Watchlist.

(* ===================================================================== *)
(** * The 24h cache of [app/api/alphaVantage.js] *)
(* ===================================================================== *)

Module TTLCache.

Section Cache.
(** The type of cached values (a gainers/losers snapshot, a time series). *)
Variable T : Type.

(** Modelled from the spec: the entry [{ value, fetchedAtEpochMillis }]
    of section 3; the implementing module [alphaVantage.js] is absent. *)
Record CacheEntry : Type := { value : T; fetchedAtEpochMillis : Z }.

(** Modelled from the spec: the key-value cache store of section 4.1,
    text under string keys, written through [encode] and read back
    through [decode]; text that does not parse into an entry reads as
    absent. *)
Variable encode : CacheEntry -> string.
Variable decode : string -> option CacheEntry.

(** Modelled from the spec: [read(key)] of section 4.2, never raising. *)
Definition read (key : string) (store : gmap string string) : option CacheEntry :=
  text ← store !! key; decode text.

(** Modelled from the spec: [isFresh(entry, now, ttlMillis)] of
    section 4.2, [now - entry.fetchedAtEpochMillis < ttlMillis]. *)
Definition isFresh (entry : CacheEntry) (now ttlMillis : Z) : bool :=
  now - fetchedAtEpochMillis entry <? ttlMillis.

(** Modelled from the spec: [write(key, value, now)] of section 4.2. *)
Definition write (key : string) (v : T) (now : Z) (store : gmap string string)
  : gmap string string :=
  <[key := encode {| value := v; fetchedAtEpochMillis := now |}]> store.

(** What a call of [getOrFetch] leaves behind. *)
Record Outcome : Type := {
  result : Completion T;
  store_after : gmap string string;
  fetcher_calls : nat;
}.

(** Modelled from the spec: [getOrFetch(key, ttlMillis, fetcher)] of
    section 4.2.  [fetcher] is what the asynchronous producer settles to
    when it is invoked: a fresh value or a failure. *)
Definition getOrFetch (key : string) (ttlMillis : Z) (fetcher : Completion T)
                      (now : Z) (store : gmap string string) : Outcome :=
  match read key store with
  | Some entry =>
      if isFresh entry now ttlMillis
      then {| result := Normal (value entry); store_after := store; fetcher_calls := 0 |}
      else
        match fetcher with
        | Normal v =>
            {| result := Normal v; store_after := write key v now store;
               fetcher_calls := 1 |}
        | Throw _ =>
            {| result := Normal (value entry); store_after := store;
               fetcher_calls := 1 |}
        end
  | None =>
      match fetcher with
      | Normal v =>
          {| result := Normal v; store_after := write key v now store;
             fetcher_calls := 1 |}
      | Throw e =>
          {| result := Throw e; store_after := store; fetcher_calls := 1 |}
      end
  end.
End Cache.

Arguments value {T} _.
Arguments fetchedAtEpochMillis {T} _.
Arguments result {T} _.
Arguments store_after {T} _.
Arguments fetcher_calls {T} _.

(** The fixed time to live: 24 hours. *)
Definition TTL_MILLIS : Z := 86400000.

End TTLCache.

(* ===================================================================== *)
(** * Vocabulary of the statements *)
(* ===================================================================== *)

(** Predicates and pure views used to state the properties below.  None of
    them is called by the code. *)
Module Vocabulary.
Import Logo Explore Watchlist.

(** ** Strings *)

(** [c] occurs in [s]. *)
Fixpoint contains (c : ascii) (s : string) : bool :=
  match s with
  | EmptyString => false
  | String x s' => (Ascii.eqb x c || contains c s')%bool
  end.

(** Space, tab, line feed, vertical tab, form feed, carriage return. *)
Definition is_space (c : ascii) : bool :=
  (Ascii.eqb c " " || Ascii.eqb c "009" || Ascii.eqb c "010"
   || Ascii.eqb c "011" || Ascii.eqb c "012" || Ascii.eqb c "013")%bool.

(** A query that is empty or made of white space only. *)
Fixpoint whitespace_only (s : string) : bool :=
  match s with
  | EmptyString => true
  | String c s' => (is_space c && whitespace_only s')%bool
  end.

(** ** Logo candidates, as the specification words them *)

(** "The prefix before any [.] or [-]". *)
Definition spec_base_prefix (s : string) : string :=
  split_head "-" (split_head "." s).

(** "The symbol itself, with [.] replaced by [-], with [-] replaced by
    [.], and the prefix before any [.] or [-]". *)
Definition spec_variants (s : string) : list string :=
  [ s; replaceAll "." "-" s; replaceAll "-" "." s; spec_base_prefix s ].

(** The specification's reading of [candidateUris(s)]: de-duplicated,
    built from the variants above, the base ticker last. *)
Definition spec_candidateUris_ok (rt : Runtime) (s : string) : Prop :=
  let r := candidateImageUris rt (JString s) in
  NoDup r
  ∧ (∀ x, x ∈ r → ∃ v, v ∈ spec_variants s ∧ x = image_url v)
  ∧ last r = Some (image_url (spec_base_prefix s)).

(** ** Search responses *)

(** The match list of a search response, when it has one: the array under
    [bestMatches]. *)
Definition match_list (response : JsValue) : option (list JsValue) :=
  match response with
  | JObject fields =>
      match assoc "bestMatches" fields with
      | Some (JArray l) => Some l
      | _ => None
      end
  | _ => None
  end.

(** ** Network answers *)

(** [Image.prefetch(url)] resolves to [true]. *)
Definition prefetch_ok (net : Network) (url : string) : bool :=
  match prefetch_outcome net url with Normal true => true | _ => false end.

(** The quick-quote request for [upper] fails: the transport rejects, the
    status is not a success, or the body is not JSON. *)
Definition quote_fails (net : Network) (upper : string) : bool :=
  match fetch_outcome net (quote_url upper) with
  | Throw _ => true
  | Normal res =>
      (negb (ok res)
       || match json res with Throw _ => true | Normal _ => false end)%bool
  end.

(** A computation only ever appends to the log. *)
Definition extends {A} (m : IO A) : Prop :=
  ∀ log, ∃ events, snd (m log) = log ++ events.

(** ** The cached snapshot seen by the watchlist *)

(** What [loadDetails] holds in [cached] after its first [try]. *)
Definition seen_snapshot (net : Network) : JsValue :=
  match getCached_outcome net with Normal c => c | Throw _ => JNull end.

(** The price is still the ["--"] it was initialised to. *)
Definition still_fallback (p : JsValue) : bool :=
  match p with JString s => String.eqb s "--" | _ => false end.

(** A record of the snapshot identifies itself by a string: the first of
    [ticker], [symbol], [name] that is set is a string (or none is set). *)
Definition record_ok (r : JsValue) : bool :=
  match first_truthy r ["ticker"; "symbol"; "name"] (JString "") with
  | Normal (JString _) => true
  | _ => false
  end.

(** A list of the snapshot: absent, or a sequence of such records. *)
Definition list_ok (v : JsValue) : bool :=
  match spread (js_or v (JArray [])) with
  | Normal l => forallb record_ok l
  | Throw _ => false
  end.

(** A snapshot as the upstream delivers it: nothing (the cache call
    failed), or an object whose [top_gainers] and [top_losers] are such
    lists. *)
Definition snapshot_ok (cached : JsValue) : bool :=
  match cached with
  | JObject fields =>
      (list_ok (default JUndefined (assoc "top_gainers" fields))
       && list_ok (default JUndefined (assoc "top_losers" fields)))%bool
  | _ => negb (truthy cached)
  end.

(** The price the quick-quote block leaves, as a value. *)
Definition quoted_price (rt : Runtime) (net : Network) (upper : string) (p : JsValue)
  : JsValue :=
  match fetch_outcome net (quote_url upper) with
  | Normal res =>
      if ok res then
        match json res with
        | Normal (JArray arr) =>
            let j0 := default JUndefined (js_index arr 0) in
            if truthy j0 then
              match get_prop j0 "price" with
              | Normal q =>
                  if negb (loose_null q)
                  then JString ("$" +:+ Number_toFixed2 rt q) else p
              | Throw _ => p
              end
            else p
        | _ => p
        end
      else p
  | Throw _ => p
  end.

(** The tile of [sym] once the snapshot gave the price [p]. *)
Definition tile_after (rt : Runtime) (net : Network) (sym : string) (p : JsValue)
  : Tile :=
  {| symbol := sym;
     image := logo_url (toUpperCase sym);
     price := if needs_quote p then quoted_price rt net (toUpperCase sym) p else p |}.

Definition tile_of (rt : Runtime) (net : Network) (cached : JsValue) (sym : string)
  : Tile :=
  tile_after rt net sym
    match cached_price rt cached (toUpperCase sym) with
    | Normal p => p
    | Throw _ => JUndefined
    end.

(** The stock [updateStockImages] returns for [stock]. *)
Definition decorated (rt : Runtime) (net : Network) (stock : Stock) : Stock :=
  match List.find (prefetch_ok net) (candidateImageUris rt (Explore.symbol stock)) with
  | Some url =>
      {| name := name stock; Explore.price := Explore.price stock;
         Explore.symbol := Explore.symbol stock; Explore.image := url;
         change := change stock |}
  | None => stock
  end.

End Vocabulary.

(* ===================================================================== *)
(** * A concrete environment *)
(* ===================================================================== *)

(** Stand-ins for the runtime, the network and the JSON codec, used to run
    the definitions on concrete inputs. *)
Module Demo.
Import Logo Explore Watchlist.

Definition rt : Runtime :=
  {| Number_toString := fun _ => "0"; Number_toFixed2 := fun _ => "0.00" |}.

(** Only the logo of [BRK-B] prefetches; the quick quote knows [MSFT];
    the search knows [ibm] and answers anything else with a rate-limit
    note; the cached snapshot lists [AAPL] with a price and [XOM] without. *)
Definition net : Network :=
  {| prefetch_outcome := fun url =>
       if String.eqb url (image_url "BRK-B") then Normal true
       else if String.eqb url (image_url "BRK") then Normal false
       else Throw NetworkError;
     fetch_outcome := fun url =>
       if String.eqb url (quote_url "MSFT")
       then Normal {| ok := true;
                      json := Normal (JArray [JObject [("symbol", JString "MSFT");
                                                       ("price", JNumber (415 # 1))]]) |}
       else Throw NetworkError;
     searchTicker_outcome := fun query =>
       if String.eqb query "ibm"
       then Normal (JObject [("bestMatches",
                              JArray [JObject [("1. symbol", JString "IBM")]])])
       else Normal (JObject [("Information", JString "rate limit")]);
     getCached_outcome :=
       Normal (JObject [("top_gainers",
                         JArray [JObject [("ticker", JString "AAPL");
                                          ("price", JString "189.50")]]);
                        ("top_losers",
                         JArray [JObject [("ticker", JString "XOM")]])]) |}.

(** A network on which every call fails. *)
Definition offline : Network :=
  {| prefetch_outcome := fun _ => Throw NetworkError;
     fetch_outcome := fun _ => Throw NetworkError;
     searchTicker_outcome := fun _ => Throw NetworkError;
     getCached_outcome := Throw NetworkError |}.

(** A network whose cached snapshot holds a [null] after the record of
    [AAPL], and on which every other call fails. *)
Definition holed : Network :=
  {| prefetch_outcome := fun _ => Throw NetworkError;
     fetch_outcome := fun _ => Throw NetworkError;
     searchTicker_outcome := fun _ => Throw NetworkError;
     getCached_outcome :=
       Normal (JObject [("top_gainers",
                         JArray [JObject [("ticker", JString "AAPL");
                                          ("price", JString "189.50")];
                                 JNull])]) |}.

Definition idle : SearchState :=
  {| searchResults := []; searchLoading := false; searchError := "" |}.

(** A codec that only knows the empty object. *)
Definition JSON_parse (text : string) : Completion (gmap string (list string)) :=
  if String.eqb text "{}" then Normal ∅ else Throw SyntaxError.

Definition JSON_stringify (m : gmap string (list string)) : string :=
  "{" +:+ join_comma (List.map fst (map_to_list m)) +:+ "}".

Definition two_groups : gmap string (list string) :=
  <["Tech" := ["AAPL"; "MSFT"]]> (<["Energy" := ["XOM"]]> ∅).

Definition screen : Screen :=
  {| groups := two_groups;
     selectedGroup := Some "Tech";
     storage := {| items := ∅; available := true |} |}.

(** A cache of texts, stored as they are. *)
Definition encode (e : TTLCache.CacheEntry string) : string := TTLCache.value e.
Definition decode (text : string) : option (TTLCache.CacheEntry string) :=
  Some {| TTLCache.value := text; TTLCache.fetchedAtEpochMillis := 0 |}.

End Demo.

(* ===================================================================== *)
(** * The search context and the header ([SearchContext.tsx], [_layout.tsx]) *)
(* ===================================================================== *)

Module Search.

(** The two cells of [SearchProvider]. *)
Record Context : Type := { searchValue : string; showSearch : bool }.

(** What [SearchProvider] starts from. *)
Definition provided : Context := {| searchValue := ""; showSearch := false |}.

Definition setSearchValue (v : string) (ctx : Context) : Context :=
  {| searchValue := v; showSearch := showSearch ctx |}.

Definition setShowSearch (b : bool) (ctx : Context) : Context :=
  {| searchValue := searchValue ctx; showSearch := b |}.

(** [const closeSearch = () => setShowSearch(false)]. *)
Definition closeSearch (ctx : Context) : Context := setShowSearch false ctx.

(** [useSearchContext()]: the context, or an [Error] outside a provider. *)
Definition useSearchContext (ctx : option Context) : Completion Context :=
  match ctx with
  | Some c => Normal c
  | None => Throw (OtherError "useSearchContext must be used within SearchProvider")
  end.

(** The [onPress] of the search / close icon of [CustomHeader]. *)
Definition headerIconPress (ctx : Context) : Context :=
  if showSearch ctx
  then setSearchValue "" (closeSearch ctx)
  else setShowSearch true ctx.

(** [onChangeText={setSearchValue}] of the header's input. *)
Definition headerType (text : string) (ctx : Context) : Context :=
  setSearchValue text ctx.

End Search.

(* ===================================================================== *)
(** * The rest of the Explore screen ([index.tsx]) *)
(* ===================================================================== *)

Module Home.
Import Logo Explore.

(** The cells of [ExploreScreen] that hold the two lists. *)
Record HomeState : Type := {
  gainers : list Stock;
  losers : list Stock;
  loading : bool;
  error : string;
}.

(** The cells as [useState] initialises them. *)
Definition mounted : HomeState :=
  {| gainers := []; losers := []; loading := true; error := "" |}.

(** [xs.map(f)] for an [f] that may throw: left to right, stopping at the
    first throw. *)
Fixpoint map_throwing {A B} (f : A -> Completion B) (xs : list A)
  : Completion (list B) :=
  match xs with
  | [] => Normal []
  | x :: rest =>
      y ← f x;
      ys ← map_throwing f rest;
      Normal (y :: ys)
  end.

(** [(v || []).slice(0, 4).map(mapStock)].  Only an array has both
    [slice] and a [map] on the slice; on any other truthy value one of the
    two calls is a call of [undefined]. *)
Definition first_four (v : JsValue) : Completion (list Stock) :=
  match js_or v (JArray []) with
  | JArray l => map_throwing mapStock (take 4 l)
  | _ => Throw TypeError
  end.

Definition FAILED : string := "Failed to load data. Please try again.".

Section Screen.
Variable rt : Runtime.
Variable net : Network.

(** [async function fetchData()], run once on mount. *)
Definition fetchData (st : HomeState) : IO HomeState :=
  (st' <- try_catch
            (data <- getCachedTopGainersLosers net ;;
             gainersRaw <- lift (g ← get_prop data "top_gainers"; first_four g) ;;
             losersRaw <- lift (l ← get_prop data "top_losers"; first_four l) ;;
             gainersWithImages <- updateStockImages rt net gainersRaw ;;
             losersWithImages <- updateStockImages rt net losersRaw ;;
             ret {| gainers := gainersWithImages; losers := losersWithImages;
                    loading := true; error := "" |})
            (ret {| gainers := []; losers := []; loading := true; error := FAILED |}) ;;
   ret {| gainers := gainers st'; losers := losers st';
          loading := false; error := error st' |})%io.

(** The effect on [searchResults]:
    [if (searchResults && searchResults.length > 0) prefetchImages()]. *)
Definition prefetchEffect (results : list JsValue) : IO unit :=
  if 0 <? Z.of_nat (length results) then prefetchImages rt net results else ret tt.

(** The effect on [searchValue]: [debouncedSearch(searchValue)]. *)
Definition searchEffect (ctx : Search.Context) (st : SearchState) : IO SearchState :=
  debouncedSearch net (Search.searchValue ctx) st.

(** The effect on [showSearch]:
    [if (showSearch && searchValue && searchValue.length > 0) debouncedSearch(searchValue)]. *)
Definition openEffect (ctx : Search.Context) (st : SearchState) : IO SearchState :=
  if (Search.showSearch ctx && truthy (JString (Search.searchValue ctx))
      && (0 <? Z.of_nat (String.length (Search.searchValue ctx))))%bool
  then debouncedSearch net (Search.searchValue ctx) st
  else ret st.
End Screen.

(** The [onPress] of a search result: clear the text and the results,
    close the search. *)
Definition resultPress (ctx : Search.Context) (st : SearchState)
  : Search.Context * SearchState :=
  (Search.closeSearch (Search.setSearchValue "" ctx),
   {| searchResults := []; searchLoading := searchLoading st;
      searchError := searchError st |}).

(** What a box (gainers, losers) shows once loading is over. *)
Inductive Box : Type :=
| NoData
| Cells (cells : list (option Stock)).

(** [stocks.length === 0 && !loading ? <no data> :
     Array(4).fill(null).map((_, idx) => stocks[idx] ...)]. *)
Definition box (loading : bool) (stocks : list Stock) : Box :=
  if ((Z.of_nat (length stocks) =? 0) && negb loading)%bool then NoData
  else Cells (List.map (fun idx => stocks !! idx) (seq 0 4)).

(** What the search overlay shows. *)
Inductive Overlay : Type :=
| Hidden
| Spinner
| ErrorText (msg : string)
| NoResults
| Results (rows : list JsValue).

(** [showSearch && searchValue.length > 0 && (searchLoading ? .. :
    searchError ? .. : !Array.isArray(searchResults) ||
    searchResults.length === 0 ? .. : <FlatList data={searchResults}/>)]. *)
Definition overlay (ctx : Search.Context) (st : SearchState) : Overlay :=
  if (Search.showSearch ctx
      && (0 <? Z.of_nat (String.length (Search.searchValue ctx))))%bool
  then
    if searchLoading st then Spinner
    else if truthy (JString (searchError st)) then ErrorText (searchError st)
    else if Z.of_nat (length (searchResults st)) =? 0 then NoResults
    else Results (searchResults st)
  else Hidden.

End Home.

(* ===================================================================== *)
(** * What the Watchlist screen shows, and what can be done on it *)
(* ===================================================================== *)

Module WatchlistView.
Import Watchlist.






Section Steps.
Variable JSON_parse : string -> Completion (gmap string (list string)).
Variable JSON_stringify : gmap string (list string) -> string.

End Steps.

End WatchlistView.

(* ===================================================================== *)
(** * Counting external calls *)
(* ===================================================================== *)

Module Counting.

Definition is_prefetch (e : Event) : bool :=
  match e with EvPrefetch _ => true | _ => false end.

Definition is_fetch (e : Event) : bool :=
  match e with EvFetch _ => true | _ => false end.

Definition is_getCached (e : Event) : bool :=
  match e with EvGetCached => true | _ => false end.

Definition is_search (e : Event) : bool :=
  match e with EvSearchTicker _ => true | _ => false end.

(** How many events of a log pass [p]. *)
Definition count (p : Event -> bool) (log : list Event) : nat :=
  length (List.filter p log).

(** A value that is neither [null] nor [undefined]. *)
Definition defined (v : JsValue) : bool := negb (loose_null v).

End Counting.

(* ===================================================================== *)
(** * More concrete environments *)
(* ===================================================================== *)

Module Scenario.
Import Logo Explore Watchlist.




(** A network answering the snapshot call with the given value, every
    other call failing. *)
Definition snapshot (data : JsValue) : Network :=
  {| prefetch_outcome := fun _ => Throw NetworkError;
     fetch_outcome := fun _ => Throw NetworkError;
     searchTicker_outcome := fun _ => Throw NetworkError;
     getCached_outcome := Normal data |}.

Definition record (ticker price : string) : JsValue :=
  JObject [("ticker", JString ticker); ("price", JString price)].

Definition movers (gainers losers : list JsValue) : JsValue :=
  JObject [("top_gainers", JArray gainers); ("top_losers", JArray losers)].

Definition five : list JsValue :=
  [record "A" "1"; record "B" "2"; record "C" "3"; record "D" "4"; JNull].

End Scenario.

(* ===================================================================== *)
(** * Vocabulary of the screen properties *)
(* ===================================================================== *)

Module Budget.
Import Counting.

(** What one search result logs while its logo is warmed up: at most
    three prefetches, and the pauses between them. *)
Definition warm_up (ev : list Event) : Prop :=
  (count is_prefetch ev ≤ 3)%nat
  ∧ Forall (λ e, is_prefetch e = true ∨ e = EvSleep 120) ev.

(** What one stock logs while its logo is looked for: at most five
    prefetches and nothing else. *)
Definition probes (ev : list Event) : Prop :=
  (length ev ≤ 5)%nat ∧ Forall (λ e, is_prefetch e = true) ev.

End Budget.

Module Outcomes.
Import Logo Explore Home.

(** [net], with the snapshot call answering [data]. *)
Definition with_snapshot (net : Network) (data : JsValue) : Network :=
  {| prefetch_outcome := prefetch_outcome net;
     fetch_outcome := fetch_outcome net;
     searchTicker_outcome := searchTicker_outcome net;
     getCached_outcome := Normal data |}.

(** The two lists [fetchData] maps before it looks for logos. *)
Definition mapped (data : JsValue) : Completion (list Stock * list Stock) :=
  g ← (v ← get_prop data "top_gainers"; first_four v);
  l ← (v ← get_prop data "top_losers"; first_four v);
  Normal (g, l).

(** The screen after the [catch] of [fetchData]. *)
Definition failed_state : HomeState :=
  {| gainers := []; losers := []; loading := false; error := FAILED |}.

End Outcomes.

Module States.
Import Watchlist.
End States.

Module Requests.
Import Watchlist.
(** The requests the tile of [sym] may make. *)
Definition tile_request (sym : string) (e : Event) : Prop :=
  e = EvFetch (quote_url (toUpperCase sym))
  ∨ e = EvPrefetch (logo_url (toUpperCase sym)).

(** What one member of the watchlist batch logs: nothing (it threw), the
    logo, or the quick quote and then the logo. *)
Definition tile_events (sym : string) (ev : list Event) : Prop :=
  ev = []
  ∨ ev = [EvPrefetch (logo_url (toUpperCase sym))]
  ∨ ev = [EvFetch (quote_url (toUpperCase sym));
          EvPrefetch (logo_url (toUpperCase sym))].

(** A tile as the grid shows it: its label apart. *)
Definition relabel (sym : string) (t : Tile) : Tile :=
  {| symbol := sym; image := image t; price := price t |}.
End Requests.

(* ===================================================================== *)
(** * Properties *)
(* ===================================================================== *)

Ltac io_unfold :=
  unfold Image_prefetch, fetch, searchTicker, getCachedTopGainersLosers, sleep,
         bind, ret, lift, try_catch, call, throw in *.

(** ** JavaScript values *)

Module JsFacts.

Lemma bind_Normal_inv {A B} (c : Completion A) (k : A → Completion B) b :
  c ≫= k = Normal b → ∃ a, c = Normal a ∧ k a = Normal b.
Proof. destruct c; simpl; [eauto|discriminate]. Qed.

Lemma get_prop_truthy s k : truthy s = true → ∃ v, get_prop s k = Normal v.
Proof. destruct s; simpl; try discriminate; eauto. Qed.

Lemma first_truthy_object fields keys d :
  ∃ v, first_truthy (JObject fields) keys d = Normal v.
Proof.
  induction keys as [|k ks IH]; simpl; [eauto|].
  destruct (truthy _); eauto.
Qed.

Lemma first_truthy_absent fields keys d :
  Forall (λ k, assoc k fields = None) keys →
  first_truthy (JObject fields) keys d = Normal d.
Proof.
  induction 1 as [|k ks Hk _ IH]; simpl; [reflexivity|].
  rewrite Hk. simpl. exact IH.
Qed.

Lemma first_truthy_defined s keys d :
  truthy s = true → ∃ v, first_truthy s keys d = Normal v.
Proof.
  intros Hs. induction keys as [|k ks IH]; simpl; [eauto|].
  destruct (get_prop_truthy s k Hs) as [v ->]. simpl.
  destruct (truthy v); eauto.
Qed.

Lemma first_truthy_truthy s keys d v :
  truthy d = true → first_truthy s keys d = Normal v → truthy v = true.
Proof.
  intros Hd. induction keys as [|k ks IH]; simpl.
  - intros [= <-]. exact Hd.
  - intros H. apply bind_Normal_inv in H as (x & _ & H).
    destruct (truthy x) eqn:Hx; [|auto]. by injection H as <-.
Qed.

End JsFacts.

(** ** Strings and sets of strings *)

Module StringFacts.
Import Vocabulary.

Lemma replaceAll_length c d s : String.length (replaceAll c d s) = String.length s.
Proof. induction s as [|x s IH]; simpl; congruence. Qed.

Lemma replaceAll_absent c d s : contains c s = false → replaceAll c d s = s.
Proof.
  induction s as [|x s IH]; simpl; [done|]. intros H.
  apply orb_false_iff in H as [-> H]. by rewrite IH.
Qed.

Lemma split_head_absent c s : contains c s = false → split_head c s = s.
Proof.
  induction s as [|x s IH]; simpl; [done|]. intros H.
  apply orb_false_iff in H as [-> H]. by rewrite IH.
Qed.

Lemma split_head_shorter c s :
  contains c s = true → (String.length (split_head c s) < String.length s)%nat.
Proof.
  induction s as [|x s IH]; simpl; [done|].
  destruct (Ascii.eqb x c); simpl; [lia|]. intros H. specialize (IH H). lia.
Qed.

Lemma split_head_contains_other c d s :
  contains d s = false → contains d (split_head c s) = false.
Proof.
  induction s as [|x s IH]; simpl; [done|]. intros H.
  apply orb_false_iff in H as [Hx H].
  destruct (Ascii.eqb x c); simpl; [done|]. by rewrite Hx, IH.
Qed.

(** The part before the first [c] and the part before the first [d] end
    at different places. *)
Lemma split_head_differ c d s :
  c ≠ d → contains d s = true → split_head c s ≠ split_head d s.
Proof.
  intros Hcd. induction s as [|x s IH]; simpl; [done|].
  destruct (Ascii.eqb x c) eqn:Ec; destruct (Ascii.eqb x d) eqn:Ed; simpl.
  - apply Ascii.eqb_eq in Ec, Ed. congruence.
  - done.
  - done.
  - intros H [= E]. by apply IH.
Qed.

Lemma split_head_twice c d s :
  contains c (split_head d s) = false →
  split_head d (split_head c s) = split_head d s.
Proof.
  induction s as [|x s IH]; simpl; [done|].
  destruct (Ascii.eqb x d) eqn:Ed.
  - intros _. destruct (Ascii.eqb x c); simpl; [done|]. by rewrite Ed.
  - simpl. intros H. apply orb_false_iff in H as [Ec H]. rewrite Ec. simpl.
    by rewrite Ed, IH.
Qed.

Lemma toUpperCase_nonempty s : s ≠ "" → toUpperCase s ≠ "".
Proof. by destruct s. Qed.

Lemma append_inj_l p a b : p +:+ a = p +:+ b → a = b.
Proof. induction p as [|x p IH]; simpl; [done|]. intros [= H]. auto. Qed.

Lemma append_length a b :
  String.length (a +:+ b) = (String.length a + String.length b)%nat.
Proof. induction a as [|x a IH]; simpl; [done|]. by rewrite IH. Qed.

Lemma append_inj_r q a b : a +:+ q = b +:+ q → a = b.
Proof.
  revert b. induction a as [|x a IH]; intros [|y b] H; simpl in *.
  - done.
  - apply (f_equal String.length) in H.
    rewrite (append_length "" q), (append_length (String y b) q) in H.
    simpl in H. lia.
  - apply (f_equal String.length) in H.
    rewrite (append_length "" q), (append_length (String x a) q) in H.
    simpl in H. lia.
  - injection H as -> H. f_equal. by apply IH.
Qed.

(** *** [Array.from(new Set(..))] *)

Lemma set_from_elem seen l x : x ∈ set_from seen l ↔ x ∈ l ∧ x ∉ seen.
Proof.
  revert seen. induction l as [|y l IH]; intros seen; simpl.
  - set_solver.
  - destruct (decide (y ∈ seen)) as [Hy|Hy].
    + rewrite IH. set_solver.
    + rewrite elem_of_cons, IH. destruct (decide (x = y)); set_solver.
Qed.

Lemma set_from_NoDup seen l : NoDup (set_from seen l).
Proof.
  revert seen. induction l as [|y l IH]; intros seen; simpl; [constructor|].
  destruct (decide (y ∈ seen)); [apply IH|].
  constructor; [|apply IH]. rewrite set_from_elem. set_solver.
Qed.

Lemma set_from_sublist seen l : set_from seen l `sublist_of` l.
Proof.
  revert seen. induction l as [|y l IH]; intros seen; simpl; [constructor|].
  destruct (decide (y ∈ seen)); [by apply sublist_cons|by apply sublist_skip].
Qed.

Lemma set_from_snoc seen l x :
  set_from seen (l ++ [x]) =
    set_from seen l ++ (if decide (x ∈ seen ∨ x ∈ l) then [] else [x]).
Proof.
  revert seen. induction l as [|y l IH]; intros seen; simpl.
  - apply decide_ext. set_solver.
  - destruct (decide (y ∈ seen)).
    + rewrite IH. f_equal. apply decide_ext. set_solver.
    + rewrite IH. simpl. f_equal. f_equal. apply decide_ext. set_solver.
Qed.

(** *** [filter(Boolean)] *)

Lemma filter_Boolean_elem l x : x ∈ filter_Boolean l ↔ x ∈ l ∧ x ≠ "".
Proof.
  unfold filter_Boolean. rewrite !list_elem_of_In, filter_In, negb_true_iff.
  by rewrite String.eqb_neq.
Qed.

Lemma filter_Boolean_sublist l : filter_Boolean l `sublist_of` l.
Proof.
  induction l as [|x l IH]; simpl; [constructor|].
  destruct (negb _); [by apply sublist_skip|by apply sublist_cons].
Qed.

Lemma filter_Boolean_snoc l x :
  x ≠ "" → filter_Boolean (l ++ [x]) = filter_Boolean l ++ [x].
Proof.
  intros Hx. unfold filter_Boolean. rewrite List.filter_app. simpl.
  apply String.eqb_neq in Hx. by rewrite Hx.
Qed.

Lemma filter_Boolean_snoc_empty l : filter_Boolean (l ++ [""]) = filter_Boolean l.
Proof. unfold filter_Boolean. rewrite List.filter_app. simpl. by rewrite app_nil_r. Qed.

(** The last entry, when the last variant is new. *)
Lemma last_new l x :
  x ≠ "" → x ∉ l → last (set_from [] (filter_Boolean (l ++ [x]))) = Some x.
Proof.
  intros Hx Hl. rewrite filter_Boolean_snoc, set_from_snoc by done.
  rewrite decide_False.
  - by rewrite last_snoc.
  - rewrite filter_Boolean_elem. set_solver.
Qed.

(** A variant met before adds nothing. *)
Lemma last_old l x :
  x ∈ l → set_from [] (filter_Boolean (l ++ [x])) = set_from [] (filter_Boolean l).
Proof.
  intros Hl. destruct (decide (x = "")) as [->|Hx].
  - by rewrite filter_Boolean_snoc_empty.
  - rewrite filter_Boolean_snoc, set_from_snoc by done.
    rewrite decide_True, app_nil_r; [done|]. right. by apply filter_Boolean_elem.
Qed.

(** Searching a list for the first element that passes. *)
Lemma find_hit {A} (p : A → bool) l1 u l2 :
  Forall (λ x, p x = false) l1 → p u = true → List.find p (l1 ++ u :: l2) = Some u.
Proof.
  induction 1 as [|x l1 Hx _ IH]; intros Hu; simpl; [by rewrite Hu|].
  rewrite Hx. auto.
Qed.

Lemma find_miss {A} (p : A → bool) l :
  Forall (λ x, p x = false) l → List.find p l = None.
Proof. induction 1 as [|x l1 Hx _ IH]; simpl; [done|]. by rewrite Hx. Qed.

Lemma Forall2_map_r {A B} (P : A → B → Prop) (g : A → B) xs :
  (∀ x, x ∈ xs → P x (g x)) → Forall2 P xs (List.map g xs).
Proof.
  induction xs as [|x xs IH]; intros H; simpl; constructor.
  - apply H. by left.
  - apply IH. intros y Hy. apply H. by right.
Qed.

End StringFacts.

(** ** The 24h cache *)

Module CacheFacts.
Import TTLCache.

(** C1. Whatever the key, the time to live, the clock and the store: when
    the fetcher fails and an entry can be read under the key, fresh or
    stale, [getOrFetch] returns the value of that entry and drops the
    error, leaving the store as it was; when the fetcher fails and no
    entry can be read, [getOrFetch] fails with the fetcher's error. *)
Theorem getOrFetch_fetcher_failure
    (T : Type) (encode : CacheEntry T → string) (decode : string → option (CacheEntry T))
    (key : string) (ttlMillis now : Z) (store : gmap string string) (err : JsError) :
  let out := getOrFetch T encode decode key ttlMillis (Throw err) now store in
  (∀ entry, read T decode key store = Some entry →
            result out = Normal (value entry) ∧ store_after out = store)
  ∧ (read T decode key store = None →
     result out = Throw err ∧ store_after out = store ∧ fetcher_calls out = 1%nat).
Proof.
  cbv zeta. unfold getOrFetch. split.
  - intros entry ->. destruct (isFresh T entry now ttlMillis); auto.
  - intros ->. auto.
Qed.

(** A snapshot stored 25 hours ago is served when the refresh fails; with
    nothing stored, the failure reaches the caller. *)
Lemma getOrFetch_fetcher_failure_witness :
  result (getOrFetch string Demo.encode Demo.decode "gainersLosersCache" TTL_MILLIS
            (Throw NetworkError) 90000000 {["gainersLosersCache" := "yesterday"]})
    = Normal "yesterday"
  ∧ result (getOrFetch string Demo.encode Demo.decode "gainersLosersCache" TTL_MILLIS
              (Throw NetworkError) 90000000 ∅)
    = Throw NetworkError.
Proof.
  split.
  - apply (proj1 (getOrFetch_fetcher_failure string Demo.encode Demo.decode
                    "gainersLosersCache" TTL_MILLIS 90000000
                    {["gainersLosersCache" := "yesterday"]} NetworkError)
                 {| value := "yesterday"; fetchedAtEpochMillis := 0 |}).
    reflexivity.
  - apply (proj2 (getOrFetch_fetcher_failure string Demo.encode Demo.decode
                    "gainersLosersCache" TTL_MILLIS 90000000 ∅ NetworkError)).
    reflexivity.
Defined.

(** A fresh entry is served without calling the fetcher. *)
Lemma getOrFetch_fresh
    (T : Type) (encode : CacheEntry T → string) (decode : string → option (CacheEntry T))
    key ttlMillis fetcher now store entry :
  read T decode key store = Some entry → isFresh T entry now ttlMillis = true →
  getOrFetch T encode decode key ttlMillis fetcher now store =
    {| result := Normal (value entry); store_after := store; fetcher_calls := 0 |}.
Proof. intros Hr Hf. unfold getOrFetch. by rewrite Hr, Hf. Qed.

End CacheFacts.

(** ** Batches *)

Module AsyncFacts.
Import Vocabulary.

Lemma Promise_all_map_total {A B} (f : A → IO B) (g : A → B) xs :
  (∀ x log, x ∈ xs → ∃ log', f x log = (Normal (g x), log')) →
  ∀ log, ∃ log', Promise_all_map f xs log = (Normal (List.map g xs), log').
Proof.
  induction xs as [|x xs IH]; intros Hf log; simpl; [eexists; reflexivity|].
  destruct (Hf x log) as [log1 ->]; [left|].
  destruct (IH (λ y l Hy, Hf y l (list_elem_of_further _ _ _ Hy)) log1) as [log2 ->].
  eauto.
Qed.

(** A batch rejects only with the rejection of one of its members. *)
Lemma Promise_all_map_throw {A B} (f : A → IO B) xs e log :
  fst (Promise_all_map f xs log) = Throw e →
  ∃ x l, x ∈ xs ∧ fst (f x l) = Throw e.
Proof.
  revert log. induction xs as [|x xs IH]; intros log; simpl; [discriminate|].
  destruct (f x log) as [[b|e'] log1] eqn:Hx.
  - destruct (Promise_all_map f xs log1) as [[bs|e'] log2] eqn:Hxs; simpl;
      [discriminate|].
    intros [= ->]. destruct (IH log1) as (y & l & Hy & Hthrow); [by rewrite Hxs|].
    exists y, l. split; [by right|done].
  - simpl. intros [= ->]. exists x, log. split; [by left|by rewrite Hx].
Qed.

(** The log of a batch is the log of its members, one after the other,
    whether or not one of them throws. *)
Lemma Promise_all_map_log {A B} (f : A → IO B) x xs log :
  snd (Promise_all_map f (x :: xs) log) =
    snd (Promise_all_map f xs (snd (f x log))).
Proof.
  simpl. destruct (f x log) as [[b|e] log1]; simpl; [|reflexivity].
  destruct (Promise_all_map f xs log1) as [[bs|e] log2]; reflexivity.
Qed.

Lemma Promise_all_map_extends {A B} (f : A → IO B) xs :
  (∀ x, extends (f x)) → extends (Promise_all_map f xs).
Proof.
  intros Hf. induction xs as [|x xs IH]; intros log.
  - exists []. simpl. by rewrite app_nil_r.
  - rewrite Promise_all_map_log. destruct (Hf x log) as [ev1 ->].
    destruct (IH (log ++ ev1)) as [ev2 ->]. exists (ev1 ++ ev2). by rewrite app_assoc.
Qed.

(** No member is cancelled: what a member logs whenever it runs is in the
    log of the batch. *)
Lemma Promise_all_map_runs_all {A B} (f : A → IO B) xs x e log :
  (∀ y, extends (f y)) → x ∈ xs → (∀ l, e ∈ snd (f x l)) →
  e ∈ snd (Promise_all_map f xs log).
Proof.
  intros Hf Hx He. revert log.
  induction xs as [|y xs IH]; intros log; [by apply elem_of_nil in Hx|].
  rewrite Promise_all_map_log. apply elem_of_cons in Hx as [<-|Hx].
  - destruct (Promise_all_map_extends f xs Hf (snd (f x log))) as [ev ->].
    apply elem_of_app. left. apply He.
  - by apply IH.
Qed.

End AsyncFacts.

(** ** Normalisation and search *)

Module ExploreFacts.
Import Logo Explore Vocabulary JsFacts.

(** C3. [mapStock] is total on objects: for every object it returns a
    record, whose image is the placeholder marker; when the object has none
    of the fields [ticker], [symbol] and [name], the symbol of the record
    is the empty string; when it has neither [price] nor [close], the
    price is the empty string; when it has no [change], the change is the
    empty string. *)
Theorem mapStock_total (fields : list (string * JsValue)) :
  ∃ st, mapStock (JObject fields) = Normal st
    ∧ image st = "placeholder"
    ∧ (assoc "ticker" fields = None → assoc "symbol" fields = None →
       assoc "name" fields = None → symbol st = JString "" ∧ name st = JString "")
    ∧ (assoc "price" fields = None → assoc "close" fields = None →
       price st = JString "")
    ∧ (assoc "change" fields = None → change st = JString "").
Proof.
  unfold mapStock.
  destruct (first_truthy_object fields ["name"; "symbol"; "ticker"] (JString "")) as [n Hn].
  destruct (first_truthy_object fields ["price"; "close"] (JString "")) as [p Hp].
  destruct (first_truthy_object fields ["ticker"; "symbol"; "name"] (JString "")) as [y Hy].
  destruct (first_truthy_object fields ["change"] (JString "")) as [c Hc].
  rewrite Hn, Hp, Hy, Hc. simpl. eexists. split; [reflexivity|]. simpl.
  split; [reflexivity|]. repeat split.
  - rewrite first_truthy_absent in Hy by (repeat constructor; assumption).
    congruence.
  - rewrite first_truthy_absent in Hn by (repeat constructor; assumption).
    congruence.
  - intros H1 H2.
    rewrite first_truthy_absent in Hp by (repeat constructor; assumption).
    congruence.
  - intros H1.
    rewrite first_truthy_absent in Hc by (repeat constructor; assumption).
    congruence.
Qed.

(** [null] and [undefined] are not objects: reading a field of them throws. *)
Lemma mapStock_nullish s : loose_null s = true → mapStock s = Throw TypeError.
Proof. destruct s; simpl; try discriminate; reflexivity. Qed.

(** Every other value is mapped. *)
Lemma mapStock_defined s : truthy s = true → ∃ st, mapStock s = Normal st.
Proof.
  intros Hs. unfold mapStock.
  destruct (first_truthy_defined s ["name"; "symbol"; "ticker"] (JString "") Hs) as [n ->].
  destruct (first_truthy_defined s ["price"; "close"] (JString "") Hs) as [p ->].
  destruct (first_truthy_defined s ["ticker"; "symbol"; "name"] (JString "") Hs) as [y ->].
  destruct (first_truthy_defined s ["change"] (JString "") Hs) as [c ->].
  simpl. eauto.
Qed.

Lemma mapStock_image s st : mapStock s = Normal st → image st = "placeholder".
Proof.
  unfold mapStock. intros H.
  apply bind_Normal_inv in H as (n & _ & H).
  apply bind_Normal_inv in H as (p & _ & H).
  apply bind_Normal_inv in H as (y & _ & H).
  apply bind_Normal_inv in H as (c & _ & H).
  injection H as <-. reflexivity.
Qed.

(** The guard [!query || query.length < 1] holds of the empty string only. *)
Lemma empty_query_guard query :
  (negb (truthy (JString query)) || (Z.of_nat (String.length query) <? 1))%bool = true
  ↔ query = "".
Proof.
  destruct query as [|c q]; simpl; [tauto|].
  split; [|discriminate]. intros H. apply Z.ltb_lt in H. lia.
Qed.

(** A query of one character or more is sent upstream once, and the cells
    are set from the answer. *)
Lemma debouncedSearch_nonempty net query st log :
  query ≠ "" →
  debouncedSearch net query st log =
    (Normal
       match searchTicker_outcome net query with
       | Normal response =>
           {| searchResults := default [] (match_list response);
              searchLoading := false; searchError := "" |}
       | Throw _ =>
           {| searchResults := []; searchLoading := false;
              searchError := "Search failed." |}
       end,
     log ++ [EvSearchTicker query]).
Proof.
  intros Hq. unfold debouncedSearch.
  destruct (negb _ || _)%bool eqn:Hg.
  { apply empty_query_guard in Hg. contradiction. }
  io_unfold. destruct (searchTicker_outcome net query) as [response|e]; [|reflexivity].
  destruct response as [| |b|n|s|l|fields]; simpl; try reflexivity.
  - destruct b; reflexivity.
  - destruct (negb (Qeq_bool n 0)); reflexivity.
  - destruct (negb (s =? "")%string); reflexivity.
  - destruct (assoc "bestMatches" fields) as [[]|]; reflexivity.
Qed.

(** A query of one blank is white space only, and yet it is sent upstream,
    on every network and from every state. *)
Lemma whitespace_query_is_sent :
  whitespace_only " " = true
  ∧ ∀ net st log,
      snd (debouncedSearch net " " st log) = log ++ [EvSearchTicker " "].
Proof.
  split; [reflexivity|]. intros. by rewrite debouncedSearch_nonempty.
Qed.

(** C2, amended. For the empty query the search clears the results and
    the error and makes no upstream call.  Every other query, white space
    included, is passed to the upstream search exactly once.  When the
    answer has no match list, or something that is not a list in its
    place, the results are the empty sequence; when it has one, the results
    are that list. *)
Theorem debouncedSearch_empty_and_malformed
    (net : Network) (st : SearchState) (log : list Event) :
  debouncedSearch net "" st log =
    (Normal {| searchResults := []; searchLoading := searchLoading st;
               searchError := "" |}, log)
  ∧ (∀ query, query ≠ "" →
       snd (debouncedSearch net query st log) = log ++ [EvSearchTicker query])
  ∧ (∀ query response,
       query ≠ "" → searchTicker_outcome net query = Normal response →
       match_list response = None →
       fst (debouncedSearch net query st log) =
         Normal {| searchResults := []; searchLoading := false; searchError := "" |})
  ∧ (∀ query response l,
       query ≠ "" → searchTicker_outcome net query = Normal response →
       match_list response = Some l →
       fst (debouncedSearch net query st log) =
         Normal {| searchResults := l; searchLoading := false; searchError := "" |}).
Proof.
  split; [reflexivity|]. split; [|split].
  - intros query Hq. by rewrite debouncedSearch_nonempty.
  - intros query response Hq Hr Hm. rewrite debouncedSearch_nonempty by done.
    rewrite Hr, Hm. reflexivity.
  - intros query response l Hq Hr Hm. rewrite debouncedSearch_nonempty by done.
    rewrite Hr, Hm. reflexivity.
Qed.

(** On the stand-in network: the rate-limit note sent back for a blank
    query has no match list, and the results are empty; the answer to
    [ibm] has one. *)
Lemma debouncedSearch_empty_and_malformed_witness :
  fst (debouncedSearch Demo.net " " Demo.idle []) =
    Normal {| searchResults := []; searchLoading := false; searchError := "" |}
  ∧ fst (debouncedSearch Demo.net "ibm" Demo.idle []) =
      Normal {| searchResults := [JObject [("1. symbol", JString "IBM")]];
                searchLoading := false; searchError := "" |}.
Proof.
  destruct (debouncedSearch_empty_and_malformed Demo.net Demo.idle [])
    as (_ & _ & Hnone & Hsome).
  split.
  - apply (Hnone " " (JObject [("Information", JString "rate limit")]));
      [discriminate|reflexivity|reflexivity].
  - apply (Hsome "ibm"
             (JObject [("bestMatches", JArray [JObject [("1. symbol", JString "IBM")]])]));
      [discriminate|reflexivity|reflexivity].
Defined.

End ExploreFacts.

(** ** Logo resolution *)

Module LogoFacts.
Import Logo Explore Vocabulary StringFacts.

#[local] Instance image_url_inj : Inj (=) (=) image_url.
Proof.
  intros a b H. unfold image_url in H.
  apply append_inj_l in H. by apply append_inj_r in H.
Qed.

Lemma candidateImageUris_string rt s :
  s ≠ "" →
  candidateImageUris rt (JString s) =
    image_url <$> set_from [] (filter_Boolean (variants (toUpperCase s))).
Proof.
  intros Hs. unfold candidateImageUris. simpl.
  apply String.eqb_neq in Hs. by rewrite Hs.
Qed.

(** When the base ticker is last among the distinct variants. *)
Lemma base_last u :
  spec_base_prefix u ≠ "" →
  contains "-" u = false ∨ contains "." (split_head "-" u) = false →
  last (set_from [] (filter_Boolean (variants u))) = Some (spec_base_prefix u).
Proof.
  intros Hbase Hcond. unfold spec_base_prefix in *.
  destruct (contains "-" u) eqn:Hdash.
  - (* a dash, and no dot before it: the fifth variant is the base, and new *)
    destruct Hcond as [|Hdot]; [done|].
    rewrite (split_head_twice "." "-" u Hdot) in *.
    change (variants u) with
      ([u; replaceAll "." "-" u; replaceAll "-" "." u; split_head "." u]
         ++ [split_head "-" u]).
    apply last_new; [done|].
    pose proof (split_head_shorter "-" u Hdash) as Hlen.
    pose proof (replaceAll_length "." "-" u). pose proof (replaceAll_length "-" "." u).
    assert (split_head "." u ≠ split_head "-" u) by (by apply split_head_differ).
    rewrite !elem_of_cons, elem_of_nil.
    intros [E|[E|[E|[E|[]]]]]; try (apply (f_equal String.length) in E; lia).
    congruence.
  - (* no dash: the fifth variant repeats the first *)
    rewrite (split_head_absent "-" (split_head "." u)) in *
      by (by apply split_head_contains_other).
    change (variants u) with
      ([u; replaceAll "." "-" u; replaceAll "-" "." u; split_head "." u]
         ++ [split_head "-" u]).
    rewrite (split_head_absent "-" u Hdash), (replaceAll_absent "-" "." u Hdash).
    rewrite last_old by set_solver.
    destruct (contains "." u) eqn:Hdot.
    + change [u; replaceAll "." "-" u; u; split_head "." u]
        with ([u; replaceAll "." "-" u; u] ++ [split_head "." u]).
      apply last_new; [done|].
      pose proof (split_head_shorter "." u Hdot) as Hlen.
      pose proof (replaceAll_length "." "-" u).
      rewrite !elem_of_cons, elem_of_nil.
      intros [E|[E|[E|[]]]]; apply (f_equal String.length) in E; lia.
    + rewrite (split_head_absent "." u Hdot) in *.
      rewrite (replaceAll_absent "." "-" u Hdot).
      assert (negb (u =? "")%string = true) as Hu
        by (by apply negb_true_iff, String.eqb_neq).
      simpl. rewrite Hu. simpl.
      repeat rewrite (decide_True (P := u ∈ [u])) by (by left). reflexivity.
Qed.

(** C4, amended. For every non-empty symbol, [candidateImageUris] returns
    logo URLs without repetition, built from exactly the non-empty ones
    among five variants of the upper-cased symbol: the upper-cased symbol,
    it with [.] replaced by [-], it with [-] replaced by [.], its part
    before the first [.], and its part before the first [-].  The order is
    that of this list (the upper-cased symbol first), each variant at its
    first occurrence.  The base ticker (the part before any [.] or [-])
    is last whenever it is not empty and the symbol has no [-], or no [.]
    before its first [-].  For [BRK.B] the result is the URLs of [BRK.B],
    [BRK-B], [BRK], in this order.  The function is pure: equal inputs give
    equal sequences. *)
Theorem candidateImageUris_variants (rt : Runtime) (s : string) (Hs : s ≠ "") :
  let u := toUpperCase s in
  let r := candidateImageUris rt (JString s) in
  NoDup r
  ∧ (∀ x, x ∈ r ↔ ∃ v, v ∈ variants u ∧ v ≠ "" ∧ x = image_url v)
  ∧ head r = Some (image_url u)
  ∧ r `sublist_of` List.map image_url (variants u)
  ∧ (spec_base_prefix u ≠ "" →
     contains "-" u = false ∨ contains "." (split_head "-" u) = false →
     last r = Some (image_url (spec_base_prefix u)))
  ∧ candidateImageUris rt (JString "BRK.B") =
      [image_url "BRK.B"; image_url "BRK-B"; image_url "BRK"].
Proof.
  cbv zeta. rewrite candidateImageUris_string by done.
  pose proof (toUpperCase_nonempty s Hs) as Hu.
  set (u := toUpperCase s) in *.
  split; [apply NoDup_fmap_2; [apply _|apply set_from_NoDup]|].
  split.
  { intros x. rewrite list_elem_of_fmap. split.
    - intros (v & -> & Hv). apply set_from_elem in Hv as [Hv _].
      apply filter_Boolean_elem in Hv as [Hv Hne]. eauto.
    - intros (v & Hv & Hne & ->). exists v. split; [done|].
      apply set_from_elem. split; [by apply filter_Boolean_elem|].
      apply not_elem_of_nil. }
  split.
  { unfold variants, filter_Boolean. cbn [List.filter].
    apply String.eqb_neq in Hu. rewrite Hu. reflexivity. }
  split.
  { change (List.map image_url (variants u)) with (image_url <$> variants u).
    apply fmap_sublist.
    etrans; [apply set_from_sublist|apply filter_Boolean_sublist]. }
  split.
  { intros Hb Hc. rewrite fmap_last, (base_last u Hb Hc). reflexivity. }
  reflexivity.
Qed.

(** The lower-case [brk.b] gives the URLs of [BRK.B], [BRK-B], [BRK], the
    base ticker last. *)
Lemma candidateImageUris_variants_witness :
  "brk.b" ≠ ""
  ∧ candidateImageUris Demo.rt (JString "brk.b") =
      [image_url "BRK.B"; image_url "BRK-B"; image_url "BRK"]
  ∧ last (candidateImageUris Demo.rt (JString "brk.b")) = Some (image_url "BRK").
Proof.
  assert ("brk.b" ≠ "") as Hs by discriminate.
  split; [exact Hs|]. split; [reflexivity|].
  destruct (candidateImageUris_variants Demo.rt "brk.b" Hs) as (_ & _ & _ & _ & Hlast & _).
  apply Hlast; [discriminate|left; reflexivity].
Defined.

(** For [A.B-C] the base ticker [A] comes fourth and the part before the
    dash, [A.B], comes last: the sequence is not built from the four
    variants of the specification, and its last entry is not the base
    ticker.  (For a symbol that starts with a separator, such as [-A], the
    last entry is not a prefix at all.) *)
Lemma candidateImageUris_base_not_last :
  candidateImageUris Demo.rt (JString "A.B-C") =
    [image_url "A.B-C"; image_url "A-B-C"; image_url "A.B.C";
     image_url "A"; image_url "A.B"]
  ∧ ¬ spec_candidateUris_ok Demo.rt "A.B-C"
  ∧ candidateImageUris Demo.rt (JString "-A") = [image_url "-A"; image_url ".A"].
Proof.
  split; [reflexivity|]. split; [|reflexivity].
  intros (_ & _ & Hlast). vm_compute in Hlast. discriminate.
Qed.

(** *** The prefetch loop of [updateStockImages] *)

Lemma Image_prefetch_caught net url log :
  try_catch (Image_prefetch net url) (ret false) log =
    (Normal (prefetch_ok net url), log ++ [EvPrefetch url]).
Proof.
  unfold prefetch_ok. io_unfold.
  destruct (prefetch_outcome net url) as [[]|]; reflexivity.
Qed.

Lemma first_prefetched_find net cs log :
  ∃ log', first_prefetched net cs log = (Normal (List.find (prefetch_ok net) cs), log').
Proof.
  revert log. induction cs as [|c cs IH]; intros log; simpl; [eexists; reflexivity|].
  unfold bind. rewrite Image_prefetch_caught.
  destruct (prefetch_ok net c); [eexists; reflexivity|apply IH].
Qed.

Lemma first_prefetched_hit net l1 u l2 log :
  Forall (λ x, prefetch_ok net x = false) l1 → prefetch_ok net u = true →
  first_prefetched net (l1 ++ u :: l2) log =
    (Normal (Some u), log ++ List.map EvPrefetch (l1 ++ [u])).
Proof.
  intros Hl1 Hu. revert log.
  induction Hl1 as [|x l1 Hx _ IH]; intros log; simpl;
    unfold bind; rewrite Image_prefetch_caught.
  - rewrite Hu. reflexivity.
  - rewrite Hx, IH, <- app_assoc. reflexivity.
Qed.

Lemma first_prefetched_miss net cs log :
  Forall (λ x, prefetch_ok net x = false) cs →
  first_prefetched net cs log = (Normal None, log ++ List.map EvPrefetch cs).
Proof.
  intros Hcs. revert log.
  induction Hcs as [|x cs Hx _ IH]; intros log; simpl.
  - unfold ret. by rewrite app_nil_r.
  - unfold bind. rewrite Image_prefetch_caught, Hx, IH, <- app_assoc. reflexivity.
Qed.

Lemma updateStockImages_item_run rt net stock log :
  ∃ log', updateStockImages_item rt net stock log = (Normal (decorated rt net stock), log').
Proof.
  unfold updateStockImages_item, decorated. unfold bind.
  destruct (first_prefetched_find net (candidateImageUris rt (symbol stock)) log)
    as [log' ->].
  destruct (List.find _ _); eexists; reflexivity.
Qed.

(** *** The [StockLogo] component *)

Lemma src_at cands l1 x rest :
  cands = l1 ++ x :: rest →
  src cands {| idx := Z.of_nat (length l1); failed := false |} = Remote (Some x).
Proof.
  intros ->. unfold src. simpl. rewrite length_app. simpl.
  destruct (Z.of_nat _ =? 0) eqn:E; [apply Z.eqb_eq in E; lia|].
  rewrite Z.min_l by lia. unfold js_index.
  destruct (Z.of_nat (length l1) <? 0) eqn:E'; [apply Z.ltb_lt in E'; lia|].
  rewrite Nat2Z.id. f_equal. by rewrite list_lookup_middle.
Qed.

(** With the first [length l1] candidates behind it, the component settles
    on the first of the remaining ones that loads, and on the placeholder
    when none does. *)
Lemma render_from loads rest : ∀ l1 fuel,
  rest ≠ [] → (length rest ≤ fuel)%nat →
  render loads (l1 ++ rest) fuel {| idx := Z.of_nat (length l1); failed := false |} =
    Some match List.find loads rest with
         | Some u => Remote (Some u)
         | None => Fallback
         end.
Proof.
  induction rest as [|x rest IH]; intros l1 fuel Hne Hfuel; [done|].
  destruct fuel as [|fuel]; [simpl in Hfuel; lia|].
  cbn [render]. rewrite (src_at _ l1 x rest) by reflexivity.
  cbn [List.find]. destruct (loads x); [reflexivity|].
  unfold onError. cbn [idx failed].
  destruct rest as [|y rest].
  - destruct (_ <? _) eqn:E.
    { apply Z.ltb_lt in E. rewrite length_app in E. simpl in E. lia. }
    destruct fuel; reflexivity.
  - destruct (_ <? _) eqn:E.
    2:{ apply Z.ltb_ge in E. rewrite length_app in E. simpl in E. lia. }
    specialize (IH (l1 ++ [x]) fuel).
    rewrite <- app_assoc, length_app in IH. simpl in IH.
    replace (Z.of_nat (length l1 + 1)) with (Z.of_nat (length l1) + 1) in IH by lia.
    apply IH; [done|]. simpl in Hfuel. simpl. lia.
Qed.

Lemma render_find loads cands :
  render loads cands (length cands) initial =
    Some match List.find loads cands with
         | Some u => Remote (Some u)
         | None => Fallback
         end.
Proof.
  destruct cands as [|x cands]; [reflexivity|].
  apply (render_from loads (x :: cands) [] (length (x :: cands))); [done|lia].
Qed.

Lemma onError_idx_nonneg cands n : 0 ≤ idx (Nat.iter n (onError cands) initial).
Proof.
  induction n as [|n IH]; [done|].
  change (Nat.iter (S n) (onError cands) initial)
    with (onError cands (Nat.iter n (onError cands) initial)).
  destruct (Nat.iter n (onError cands) initial) as [i f]. simpl in IH.
  unfold onError. simpl. destruct (_ <? _); simpl; lia.
Qed.

(** C5. For every candidate list, the prefetch loop of
    [updateStockImages] tries the candidates in order: when a candidate
    prefetches and none before it does, it is the result, and exactly the
    candidates up to it were tried; when none prefetches (in particular
    when there is none), there is no result and all were tried, a failure
    (a rejection or a [false]) never stopping the loop.  The stock is
    returned with the found URL as its image, and unchanged otherwise: a
    stock made by [mapStock] keeps the marker ["placeholder"].  Likewise
    [StockLogo], given time for one error per candidate, settles on the
    first candidate that loads and on the bundled placeholder when none
    loads. *)
Theorem logo_resolution_first_loading
    (rt : Runtime) (net : Network) (loads : string → bool) :
  (∀ l1 u l2 log,
      Forall (λ x, prefetch_ok net x = false) l1 → prefetch_ok net u = true →
      first_prefetched net (l1 ++ u :: l2) log =
        (Normal (Some u), log ++ List.map EvPrefetch (l1 ++ [u])))
  ∧ (∀ cs log,
      Forall (λ x, prefetch_ok net x = false) cs →
      first_prefetched net cs log = (Normal None, log ++ List.map EvPrefetch cs))
  ∧ (∀ stock log, ∃ stock' log',
      updateStockImages_item rt net stock log = (Normal stock', log')
      ∧ image stock' =
          default (image stock)
                  (List.find (prefetch_ok net) (candidateImageUris rt (symbol stock)))
      ∧ symbol stock' = symbol stock)
  ∧ (∀ s stock log,
      mapStock s = Normal stock →
      Forall (λ x, prefetch_ok net x = false) (candidateImageUris rt (symbol stock)) →
      fst (updateStockImages_item rt net stock log) = Normal stock
      ∧ image stock = "placeholder")
  ∧ (∀ l1 u l2,
      Forall (λ x, loads x = false) l1 → loads u = true →
      render loads (l1 ++ u :: l2) (length (l1 ++ u :: l2)) initial =
        Some (Remote (Some u)))
  ∧ (∀ cs,
      Forall (λ x, loads x = false) cs →
      render loads cs (length cs) initial = Some Fallback).
Proof.
  split; [intros; by apply first_prefetched_hit|].
  split; [intros; by apply first_prefetched_miss|].
  split.
  { intros stock log.
    destruct (updateStockImages_item_run rt net stock log) as [log' ->].
    exists (decorated rt net stock), log'. split; [reflexivity|].
    unfold decorated. destruct (List.find _ _); done. }
  split.
  { intros s stock log Hmap Hall.
    destruct (updateStockImages_item_run rt net stock log) as [log' ->].
    unfold decorated. rewrite find_miss by done.
    split; [reflexivity|]. by apply (ExploreFacts.mapStock_image s). }
  split.
  - intros l1 u l2 H1 Hu. rewrite render_find, find_hit; done.
  - intros cs Hcs. rewrite render_find, find_miss; done.
Qed.

(** On the stand-in network the logo of [BRK.B] resolves to the second
    candidate, after the first was tried and rejected. *)
Lemma logo_resolution_first_loading_witness :
  first_prefetched Demo.net (candidateImageUris Demo.rt (JString "BRK.B")) [] =
    (Normal (Some (image_url "BRK-B")),
     [EvPrefetch (image_url "BRK.B"); EvPrefetch (image_url "BRK-B")])
  ∧ first_prefetched Demo.net (candidateImageUris Demo.rt (JString "XOM")) [] =
      (Normal None, [EvPrefetch (image_url "XOM")]).
Proof.
  destruct (logo_resolution_first_loading Demo.rt Demo.net (λ _, false))
    as (Hhit & Hmiss & _).
  split.
  - apply (Hhit [image_url "BRK.B"] (image_url "BRK-B") [image_url "BRK"] []).
    + repeat constructor.
    + reflexivity.
  - apply (Hmiss [image_url "XOM"] []). repeat constructor.
Defined.

(** C10. For an absent ([undefined]), [null] or empty symbol
    [candidateImageUris] returns the empty list.  Given an empty candidate
    list, [StockLogo] shows the bundled placeholder, in every state, and
    does so without reading the list.  Whatever the candidates and however
    many errors have occurred, the component never hands an out-of-range
    entry ([undefined]) to the image. *)
Theorem empty_symbol_placeholder (rt : Runtime) :
  candidateImageUris rt JUndefined = []
  ∧ candidateImageUris rt JNull = []
  ∧ candidateImageUris rt (JString "") = []
  ∧ candidates {| uri := None; uris := Some [] |} = []
  ∧ candidates {| uri := None; uris := None |} = []
  ∧ (∀ st, src [] st = Fallback)
  ∧ (∀ loads fuel st, render loads [] fuel st = Some Fallback)
  ∧ (∀ cands n, src cands (Nat.iter n (onError cands) initial) ≠ Remote None).
Proof.
  repeat (split; [reflexivity|]).
  split. { intros []. unfold src. simpl. by rewrite orb_true_r. }
  split. { intros loads [] []; simpl; unfold src; simpl; by rewrite orb_true_r. }
  intros cands n. pose proof (onError_idx_nonneg cands n) as Hidx.
  unfold src. destruct (_ || _)%bool eqn:E; [done|].
  apply orb_false_iff in E as [_ E]. apply Z.eqb_neq in E.
  unfold js_index. destruct (_ <? 0) eqn:E'; [apply Z.ltb_lt in E'; lia|].
  destruct (lookup_lt_is_Some_2 cands
              (Z.to_nat (Z.min (idx (Nat.iter n (onError cands) initial))
                               (Z.of_nat (length cands) - 1)))) as [u ->]; [lia|done].
Qed.

End LogoFacts.

(** ** The watchlist *)

Module WatchlistFacts.
Import Watchlist Vocabulary JsFacts.

(** C7. [loadGroups] never raises, whatever the store does.  On a freshly
    mounted screen, when nothing is stored under [WATCHLIST_GROUPS], or
    when the stored text fails to parse as JSON, the screen is left as it
    was mounted: with the empty mapping, no group. *)
Theorem loadGroups_never_raises
    (JSON_parse : string → Completion (gmap string (list string)))
    (db : AsyncStorage) :
  (∀ st, ∃ st', loadGroups JSON_parse st = Normal st')
  ∧ (items db !! WATCHLIST_GROUPS = None →
     loadGroups JSON_parse (mounted db) = Normal (mounted db))
  ∧ (∀ text e, items db !! WATCHLIST_GROUPS = Some text →
               JSON_parse text = Throw e →
               loadGroups JSON_parse (mounted db) = Normal (mounted db))
  ∧ groups (mounted db) = ∅.
Proof.
  split; [|split; [|split]].
  - intros st. unfold loadGroups.
    destruct (getItem _ _ ≫= _); eauto.
  - intros Hnone. unfold loadGroups, getItem. simpl.
    destruct (available db); simpl; [rewrite Hnone|]; reflexivity.
  - intros text e Hsome Hparse. unfold loadGroups, getItem. simpl.
    destruct (available db); simpl; [rewrite Hsome|]; [|reflexivity].
    simpl. destruct (negb _); [rewrite Hparse|]; reflexivity.
  - reflexivity.
Qed.

(** A store holding text cut short loads as no group. *)
Lemma loadGroups_never_raises_witness :
  loadGroups Demo.JSON_parse
    (mounted {| items := {[WATCHLIST_GROUPS := "{Tech:[AAP"]}; available := true |})
  = Normal (mounted {| items := {[WATCHLIST_GROUPS := "{Tech:[AAP"]};
                       available := true |}).
Proof.
  apply (proj1 (proj2 (proj2
           (loadGroups_never_raises Demo.JSON_parse
              {| items := {[WATCHLIST_GROUPS := "{Tech:[AAP"]};
                 available := true |})))
           "{Tech:[AAP" SyntaxError); reflexivity.
Defined.

(** C6. For every mapping and every group name, the deletion the user
    confirms, the store accepting the write, succeeds and removes exactly
    that group with all its symbols, in one update; the membership of every
    other group is unchanged; the whole updated mapping is written under
    the single key [WATCHLIST_GROUPS], every other key of the store being
    left alone; and when there is no group of that name the mapping is
    unchanged. *)
Theorem deleteGroup_frame
    (JSON_stringify : gmap string (list string) → string)
    (group : string) (st : Screen)
    (Hdb : available (storage st) = true) :
  ∃ st', deleteGroup JSON_stringify group Delete st = Normal st'
    ∧ groups st' = delete group (groups st)
    ∧ groups st' !! group = None
    ∧ (∀ g, g ≠ group → groups st' !! g = groups st !! g)
    ∧ (groups st !! group = None → groups st' = groups st)
    ∧ items (storage st') =
        <[WATCHLIST_GROUPS := JSON_stringify (groups st')]> (items (storage st)).
Proof.
  unfold deleteGroup, deleteGroup_onPress, setItem. rewrite Hdb. simpl.
  eexists. split; [reflexivity|]. simpl.
  split; [reflexivity|]. split; [apply lookup_delete_eq|].
  split; [intros g Hg; by apply lookup_delete_ne|].
  split; [intros H; by apply delete_id|]. reflexivity.
Qed.

(** Deleting [Tech] from the two stand-in groups leaves [Energy] alone. *)
Lemma deleteGroup_frame_witness :
  available (storage Demo.screen) = true
  ∧ ∃ st', deleteGroup Demo.JSON_stringify "Tech" Delete Demo.screen = Normal st'
      ∧ groups st' !! "Tech" = None
      ∧ groups st' !! "Energy" = Some ["XOM"].
Proof.
  split; [reflexivity|].
  destruct (deleteGroup_frame Demo.JSON_stringify "Tech" Demo.screen eq_refl)
    as (st' & Hrun & _ & Hgone & Hothers & _).
  exists st'. split; [exact Hrun|]. split; [exact Hgone|].
  rewrite (Hothers "Energy"); [reflexivity|discriminate].
Defined.

(** Without the confirmation nothing is deleted. *)
Lemma deleteGroup_cancel JSON_stringify group st :
  deleteGroup JSON_stringify group Cancel st = Normal st.
Proof. reflexivity. Qed.

(** *** Looking a price up in the cached snapshot *)

Lemma find_upper_ok upper l :
  forallb record_ok l = true → ∃ v, find_upper upper l = Normal v.
Proof.
  induction l as [|r l IH]; cbn [find_upper forallb]; [eauto|].
  intros H. apply andb_true_iff in H as [Hr Hl]. unfold record_ok in Hr.
  destruct (first_truthy r _ _) as [[]|]; try discriminate.
  cbn [mbind Completion_bind call_toUpperCase].
  destruct (String.eqb _ _); eauto.
Qed.

(** The look-up leaves a truthy price, so the test [!price || price ===
    '--'] asks whether the price is still ["--"]. *)
Lemma cached_price_truthy rt cached upper p :
  cached_price rt cached upper = Normal p →
  truthy p = true ∧ needs_quote p = still_fallback p.
Proof.
  intros H. assert (truthy p = true) as Hp.
  { unfold cached_price in H. destruct (truthy cached); [|by injection H as <-].
    apply bind_Normal_inv in H as (g & _ & H).
    apply bind_Normal_inv in H as (gs & _ & H).
    apply bind_Normal_inv in H as (l & _ & H).
    apply bind_Normal_inv in H as (ls & _ & H).
    apply bind_Normal_inv in H as (found & _ & H).
    destruct (truthy found); [|by injection H as <-].
    apply bind_Normal_inv in H as (q & Hq & H).
    apply first_truthy_truthy in Hq; [|reflexivity].
    destruct q; injection H as <-; done. }
  split; [done|]. unfold needs_quote. by rewrite Hp.
Qed.

(** On a snapshot as the upstream delivers it, the look-up does not throw. *)
Lemma cached_price_ok rt cached upper :
  snapshot_ok cached = true → ∃ p, cached_price rt cached upper = Normal p.
Proof.
  unfold cached_price. intros H.
  destruct (truthy cached) eqn:Ht; [|eauto].
  destruct cached as [| |b|n|s|l|fields]; unfold snapshot_ok in H;
    try (rewrite Ht in H; discriminate).
  cbn [get_prop mbind Completion_bind].
  apply andb_true_iff in H as [Hg Hl]. unfold list_ok in Hg, Hl.
  destruct (spread (js_or (default JUndefined (assoc "top_gainers" fields)) _))
    as [gs|]; [|discriminate].
  destruct (spread (js_or (default JUndefined (assoc "top_losers" fields)) _))
    as [ls|]; [|discriminate].
  cbn [mbind Completion_bind].
  destruct (find_upper_ok upper (gs ++ ls)) as [found ->].
  { rewrite forallb_app. by rewrite Hg, Hl. }
  cbn [mbind Completion_bind]. destruct (truthy found) eqn:Hf; [|eauto].
  destruct (first_truthy_defined found ["price"; "close"; "last"] (JString "--") Hf)
    as [q ->].
  cbn [mbind Completion_bind]. destruct q; eauto.
Qed.

(** *** The quick quote *)

Lemma quick_quote_caught rt net upper p log :
  try_catch (quick_quote rt net upper p) (ret p) log =
    (Normal (quoted_price rt net upper p), log ++ [EvFetch (quote_url upper)]).
Proof.
  unfold quick_quote, quoted_price. io_unfold.
  destruct (fetch_outcome net (quote_url upper)) as [[o j]|]; [|reflexivity].
  simpl. destruct o; [|reflexivity].
  destruct j as [[| | | | |arr|]|]; try reflexivity.
  destruct (truthy (default JUndefined (js_index arr 0))); [|reflexivity].
  destruct (get_prop _ "price") as [q|]; [|reflexivity].
  destruct (negb (loose_null q)); reflexivity.
Qed.

Lemma quoted_price_fails rt net upper p :
  quote_fails net upper = true → quoted_price rt net upper p = p.
Proof.
  unfold quote_fails, quoted_price.
  destruct (fetch_outcome net (quote_url upper)) as [[o j]|]; [|reflexivity].
  simpl. destruct o; [|reflexivity]. simpl. destruct j; [discriminate|reflexivity].
Qed.

(** *** One member of the batch *)

Lemma loadDetails_item_run rt net cached sym p log :
  cached_price rt cached (toUpperCase sym) = Normal p →
  loadDetails_item rt net cached sym log =
    (Normal (tile_after rt net sym p),
     log ++ (if needs_quote p then [EvFetch (quote_url (toUpperCase sym))] else [])
         ++ [EvPrefetch (logo_url (toUpperCase sym))]).
Proof.
  intros Hp. unfold loadDetails_item, tile_after.
  unfold bind at 1. unfold lift at 1. rewrite Hp.
  unfold bind at 1. destruct (needs_quote p).
  - rewrite quick_quote_caught. io_unfold.
    destruct (prefetch_outcome net _); rewrite <- app_assoc; reflexivity.
  - io_unfold. destruct (prefetch_outcome net _); reflexivity.
Qed.

Lemma loadDetails_item_throw rt net cached sym e log :
  cached_price rt cached (toUpperCase sym) = Throw e →
  loadDetails_item rt net cached sym log = (Throw e, log).
Proof.
  intros Hp. unfold loadDetails_item. unfold bind at 1. unfold lift at 1.
  rewrite Hp. reflexivity.
Qed.

(** The tile of a member always carries a remote logo: the placeholder
    branch of [renderStock] is not taken for it. *)
Lemma tile_source_remote rt net sym p :
  tile_source (tile_after rt net sym p) =
    Logo.Remote (Some (logo_url (toUpperCase sym))).
Proof. reflexivity. Qed.

(** C9. For every watchlist symbol, the look-up of the upper-cased symbol
    in the cached snapshot leaves a truthy price, and the quick-quote
    endpoint is requested, once, exactly when that price is still the
    ["--"] it started as; when the look-up found a price, no quick-quote
    request is made and the tile shows the price found.  (A look-up that
    throws ends the member before any request.) *)
Theorem quick_quote_last_resort
    (rt : Runtime) (net : Network) (cached : JsValue) (sym : string)
    (log : list Event) :
  let upper := toUpperCase sym in
  let run := loadDetails_item rt net cached sym log in
  match cached_price rt cached upper with
  | Normal p =>
      truthy p = true
      ∧ snd run =
          log ++ (if still_fallback p then [EvFetch (quote_url upper)] else [])
              ++ [EvPrefetch (logo_url upper)]
      ∧ (still_fallback p = false → ∃ t, fst run = Normal t ∧ price t = p)
  | Throw e => run = (Throw e, log)
  end.
Proof.
  cbv zeta. destruct (cached_price rt cached (toUpperCase sym)) as [p|e] eqn:Hp.
  - destruct (cached_price_truthy _ _ _ _ Hp) as [Ht Hn].
    rewrite (loadDetails_item_run _ _ _ _ _ _ Hp), Hn. simpl.
    split; [done|]. split; [done|].
    intros Hf. eexists. split; [reflexivity|]. unfold tile_after. simpl.
    by rewrite Hn, Hf.
  - by apply loadDetails_item_throw.
Qed.

(** On the stand-in network: [aapl] is priced by the snapshot and no quote
    is requested; [xom] is listed without a price and the quote is
    requested. *)
Lemma quick_quote_last_resort_witness :
  snd (loadDetails_item Demo.rt Demo.net (seen_snapshot Demo.net) "aapl" []) =
    [EvPrefetch (logo_url "AAPL")]
  ∧ snd (loadDetails_item Demo.rt Demo.net (seen_snapshot Demo.net) "xom" []) =
      [EvFetch (quote_url "XOM"); EvPrefetch (logo_url "XOM")].
Proof.
  split.
  - exact (proj1 (proj2
             (quick_quote_last_resort Demo.rt Demo.net (seen_snapshot Demo.net) "aapl" []))).
  - exact (proj1 (proj2
             (quick_quote_last_resort Demo.rt Demo.net (seen_snapshot Demo.net) "xom" []))).
Defined.

End WatchlistFacts.

(** ** Batches of per-symbol look-ups *)

Module BatchFacts.
Import Logo Explore Watchlist Vocabulary StringFacts AsyncFacts.

(** The loop of [prefetchImages] never throws, and starts with its first
    candidate. *)
Lemma prefetch_first3_run net cs log :
  ∃ events, prefetch_first3 net cs log = (Normal tt, log ++ events)
            ∧ ∀ c, head cs = Some c → EvPrefetch c ∈ events.
Proof.
  revert log. induction cs as [|c cs IH]; intros log; simpl.
  - exists []. unfold ret. rewrite app_nil_r. split; [done|]. intros c [=].
  - unfold bind at 1. rewrite LogoFacts.Image_prefetch_caught.
    destruct (prefetch_ok net c).
    + exists [EvPrefetch c]. split; [reflexivity|]. intros ? [= <-]. by left.
    + unfold bind, sleep, call.
      destruct (IH ((log ++ [EvPrefetch c]) ++ [EvSleep 120])) as (ev & -> & _).
      exists ([EvPrefetch c] ++ [EvSleep 120] ++ ev). split.
      * by rewrite !app_assoc.
      * intros ? [= <-]. by left.
Qed.

Lemma prefetchImages_item_extends rt net item :
  extends (prefetchImages_item rt net item).
Proof.
  intros log. unfold prefetchImages_item. unfold bind, lift.
  destruct (result_symbol item) as [sym|]; simpl; [|exists []; by rewrite app_nil_r].
  destruct (negb (truthy sym)); simpl; [exists []; by rewrite app_nil_r|].
  destruct (prefetch_first3_run net (take 3 (candidateImageUris rt sym)) log)
    as (ev & -> & _). eauto.
Qed.

Lemma prefetchImages_item_first rt net item sym c log :
  result_symbol item = Normal sym →
  head (candidateImageUris rt sym) = Some c →
  EvPrefetch c ∈ snd (prefetchImages_item rt net item log).
Proof.
  intros Hsym Hc. unfold prefetchImages_item. unfold bind, lift. rewrite Hsym.
  destruct (truthy sym) eqn:Ht.
  2:{ unfold candidateImageUris in Hc. rewrite Ht in Hc. discriminate. }
  simpl.
  destruct (prefetch_first3_run net (take 3 (candidateImageUris rt sym)) log)
    as (ev & -> & Hev). simpl. apply elem_of_app. right. apply Hev.
  destruct (candidateImageUris rt sym); [discriminate|]. exact Hc.
Qed.

(** With everything unreachable, the member of [zzzz] fails on its quote
    and on its image; its price falls back to ["--"], but its image does
    not fall back to the placeholder: the tile keeps the remote logo URL
    whose prefetch was rejected, and [renderStock] hands that URL to the
    image.  And when the cached snapshot holds a [null] record, the member
    of [msft], scanning past the record of [AAPL], throws, and the batch
    rejects although the member of [aapl] alone succeeds. *)
Lemma watchlist_logo_stays_remote :
  prefetch_outcome Demo.offline (logo_url "ZZZZ") = Throw NetworkError
  ∧ fst (loadDetails Demo.rt Demo.offline ["zzzz"] []) =
      Normal [ {| Watchlist.symbol := "zzzz"; Watchlist.image := logo_url "ZZZZ";
                  Watchlist.price := JString "--" |} ]
  ∧ tile_source {| Watchlist.symbol := "zzzz"; Watchlist.image := logo_url "ZZZZ";
                   Watchlist.price := JString "--" |}
      = Remote (Some (logo_url "ZZZZ"))
  ∧ fst (loadDetails Demo.rt Demo.holed ["aapl"] []) =
      Normal [ {| Watchlist.symbol := "aapl"; Watchlist.image := logo_url "AAPL";
                  Watchlist.price := JString "189.50" |} ]
  ∧ fst (loadDetails Demo.rt Demo.holed ["aapl"; "msft"] []) = Throw TypeError.
Proof. repeat split; reflexivity. Qed.

(** C8, amended. No member of a batch fails or cancels another.

    Watchlist ([loadDetails]): on a snapshot as the upstream delivers it
    (or none, the cache call having failed), whatever the symbols and
    however the quick quotes and the image prefetches fail, the batch
    settles with one tile per symbol, in order; each tile is the one its
    member yields when run alone, it carries its symbol, and when the
    snapshot has no price for it and the quick quote fails, its price is
    ["--"].  On any snapshot, the only thing that can make the batch reject
    is the scan of the snapshot itself throwing for one of the symbols: no
    failure of a quick quote or of an image prefetch does.

    Search results ([prefetchImages]): whatever the results are and
    however the prefetches fail, the batch settles without an error, and
    every result that has a symbol had its first logo candidate tried.
    The logo of a result none of whose candidates loads is the bundled
    placeholder.

    Home ([updateStockImages]): the batch settles with one stock per
    stock, in order, each with the first candidate that prefetched as its
    image, or with the image it came with (the marker ["placeholder"]). *)
Theorem batch_members_isolated (rt : Runtime) (net : Network) :
  (∀ symbols log,
      snapshot_ok (seen_snapshot net) = true →
      ∃ tiles log',
        loadDetails rt net symbols log = (Normal tiles, log')
        ∧ Forall2
            (λ sym t,
               fst (loadDetails_item rt net (seen_snapshot net) sym []) = Normal t
               ∧ Watchlist.symbol t = sym
               ∧ (cached_price rt (seen_snapshot net) (toUpperCase sym)
                    = Normal (JString "--") →
                  quote_fails net (toUpperCase sym) = true →
                  Watchlist.price t = JString "--"))
            symbols tiles)
  ∧ (∀ symbols log e,
      fst (loadDetails rt net symbols log) = Throw e →
      ∃ sym, sym ∈ symbols
             ∧ cached_price rt (seen_snapshot net) (toUpperCase sym) = Throw e)
  ∧ (∀ results log,
      ∃ log',
        prefetchImages rt net results log = (Normal tt, log')
        ∧ ∀ item sym c,
            item ∈ results → result_symbol item = Normal sym →
            head (candidateImageUris rt sym) = Some c →
            EvPrefetch c ∈ log')
  ∧ (∀ loads sym,
      Forall (λ u, loads u = false) (candidateImageUris rt sym) →
      let cands := candidates {| uri := None; uris := Some (candidateImageUris rt sym) |} in
      render loads cands (length cands) initial = Some Fallback)
  ∧ (∀ stocks log,
      ∃ stocks' log',
        updateStockImages rt net stocks log = (Normal stocks', log')
        ∧ Forall2
            (λ stock stock',
               Explore.symbol stock' = Explore.symbol stock
               ∧ Explore.image stock' =
                   default (Explore.image stock)
                     (List.find (prefetch_ok net)
                        (candidateImageUris rt (Explore.symbol stock))))
            stocks stocks').
Proof.
  split; [|split; [|split; [|split]]].
  - intros symbols log Hok. unfold loadDetails.
    unfold bind at 1.
    assert (try_catch (getCachedTopGainersLosers net) (ret JNull) log
            = (Normal (seen_snapshot net), log ++ [EvGetCached])) as ->.
    { unfold seen_snapshot. io_unfold. destruct (getCached_outcome net); reflexivity. }
    set (cached := seen_snapshot net) in *.
    assert (∀ sym l, ∃ l', loadDetails_item rt net cached sym l
                           = (Normal (tile_of rt net cached sym), l')) as Hitem.
    { intros sym l. unfold tile_of.
      destruct (WatchlistFacts.cached_price_ok rt cached (toUpperCase sym) Hok) as [p Hp].
      rewrite Hp, (WatchlistFacts.loadDetails_item_run _ _ _ _ _ _ Hp). eauto. }
    destruct (Promise_all_map_total (loadDetails_item rt net cached)
                (tile_of rt net cached) symbols (λ x l _, Hitem x l)
                (log ++ [EvGetCached])) as [log' ->].
    do 2 eexists. split; [reflexivity|].
    apply Forall2_map_r. intros sym _.
    destruct (Hitem sym []) as [l' ->]. split; [reflexivity|].
    split; [reflexivity|].
    intros Hp Hq. unfold tile_of. rewrite Hp. unfold tile_after. simpl.
    by apply WatchlistFacts.quoted_price_fails.
  - intros symbols log e. unfold loadDetails. unfold bind at 1.
    assert (try_catch (getCachedTopGainersLosers net) (ret JNull) log
            = (Normal (seen_snapshot net), log ++ [EvGetCached])) as ->.
    { unfold seen_snapshot. io_unfold. destruct (getCached_outcome net); reflexivity. }
    intros Hthrow. apply Promise_all_map_throw in Hthrow as (sym & l & Hin & Hsym).
    exists sym. split; [done|].
    destruct (cached_price rt (seen_snapshot net) (toUpperCase sym)) as [p|e'] eqn:Hp.
    + rewrite (WatchlistFacts.loadDetails_item_run _ _ _ _ _ _ Hp) in Hsym.
      discriminate.
    + rewrite (WatchlistFacts.loadDetails_item_throw _ _ _ _ _ _ Hp) in Hsym.
      simpl in Hsym. congruence.
  - intros results log. unfold prefetchImages. unfold try_catch, bind, ret.
    pose proof (Promise_all_map_runs_all (prefetchImages_item rt net) results) as Hall.
    destruct (Promise_all_map (prefetchImages_item rt net) results log)
      as [[us|e] log'] eqn:Hrun; eexists; (split; [reflexivity|]);
      intros item sym c Hin Hsym Hc;
      specialize (Hall item (EvPrefetch c) log (prefetchImages_item_extends rt net) Hin
                       (λ l, prefetchImages_item_first rt net item sym c l Hsym Hc));
      by rewrite Hrun in Hall.
  - intros loads sym Hall. cbv zeta.
    assert (candidates {| uri := None; uris := Some (candidateImageUris rt sym) |}
            = candidateImageUris rt sym) as ->.
    { unfold candidates. simpl. destruct (candidateImageUris rt sym); reflexivity. }
    rewrite LogoFacts.render_find, find_miss; done.
  - intros stocks log. unfold updateStockImages.
    destruct (Promise_all_map_total (updateStockImages_item rt net)
                (decorated rt net) stocks
                (λ x l _, LogoFacts.updateStockImages_item_run rt net x l) log)
      as [log' ->].
    do 2 eexists. split; [reflexivity|].
    apply Forall2_map_r. intros stock _. unfold decorated.
    destruct (List.find _ _); done.
Qed.

(** With everything unreachable, the two symbols of a group still get
    their tiles, priced ["--"]. *)
Lemma batch_members_isolated_witness :
  fst (loadDetails Demo.rt Demo.offline ["aapl"; "msft"] []) =
    Normal [ {| Watchlist.symbol := "aapl"; Watchlist.image := logo_url "AAPL";
                Watchlist.price := JString "--" |};
             {| Watchlist.symbol := "msft"; Watchlist.image := logo_url "MSFT";
                Watchlist.price := JString "--" |} ].
Proof.
  destruct (proj1 (batch_members_isolated Demo.rt Demo.offline) ["aapl"; "msft"] [] eq_refl)
    as (tiles & log' & Hrun & Htiles).
  rewrite Hrun. simpl. f_equal.
  apply Forall2_cons_inv_l in Htiles as (t1 & rest & (H1 & _) & Hrest & ->).
  apply Forall2_cons_inv_l in Hrest as (t2 & rest' & (H2 & _) & Hnil & ->).
  apply Forall2_nil_inv_l in Hnil as ->.
  injection H1 as <-. injection H2 as <-. reflexivity.
Defined.

End BatchFacts.

(* ===================================================================== *)
(** * Further properties of the screens *)
(* ===================================================================== *)

Module MoreLogoFacts.
Import Logo Explore Vocabulary StringFacts Counting.

Lemma onError_walk cands k :
  (k < length cands)%nat →
  Nat.iter k (onError cands) initial = {| idx := Z.of_nat k; failed := false |}.
Proof.
  induction k as [|k IH]; intros Hk; [reflexivity|].
  change (Nat.iter (S k) (onError cands) initial)
    with (onError cands (Nat.iter k (onError cands) initial)).
  rewrite IH by lia. unfold onError. simpl.
  destruct (_ <? _) eqn:E; [f_equal; lia|]. apply Z.ltb_ge in E. lia.
Qed.

Lemma onError_done cands k :
  cands ≠ [] → (length cands ≤ k)%nat →
  Nat.iter k (onError cands) initial =
    {| idx := Z.of_nat (length cands) - 1; failed := true |}.
Proof.
  intros Hne. induction k as [|k IH]; intros Hk.
  { destruct cands; [done|simpl in Hk; lia]. }
  change (Nat.iter (S k) (onError cands) initial)
    with (onError cands (Nat.iter k (onError cands) initial)).
  destruct (decide (length cands ≤ k)%nat) as [Hle|Hgt].
  - rewrite IH by done. unfold onError. simpl. rewrite Z.ltb_irrefl. reflexivity.
  - rewrite onError_walk by lia. unfold onError. simpl.
    destruct (_ <? _) eqn:E; [apply Z.ltb_lt in E; lia|]. f_equal. lia.
Qed.

(** X1. [StockLogo] walks its candidates in order: after [k] load errors it
    shows candidate number [k] while there is one, and the bundled
    placeholder from the error that exhausts the list on, for good. *)
Theorem StockLogo_walk (cands : list string) (k : nat) :
  ((k < length cands)%nat →
   src cands (Nat.iter k (onError cands) initial) = Remote (cands !! k))
  ∧ ((length cands ≤ k)%nat →
     src cands (Nat.iter k (onError cands) initial) = Fallback).
Proof.
  split; intros Hk.
  - rewrite onError_walk by done. unfold src. simpl.
    destruct (Z.of_nat (length cands) =? 0) eqn:E; [apply Z.eqb_eq in E; lia|].
    rewrite Z.min_l by lia. unfold js_index.
    destruct (_ <? 0) eqn:E'; [apply Z.ltb_lt in E'; lia|]. by rewrite Nat2Z.id.
  - destruct cands as [|c cands].
    + unfold src. simpl. by rewrite orb_true_r.
    + rewrite onError_done by done. reflexivity.
Qed.

Lemma upper_ascii_idemp c : upper_ascii (upper_ascii c) = upper_ascii c.
Proof. destruct c as [[] [] [] [] [] [] [] []]; reflexivity. Qed.

Lemma toUpperCase_idemp s : toUpperCase (toUpperCase s) = toUpperCase s.
Proof. induction s as [|c s IH]; simpl; [done|]. by rewrite upper_ascii_idemp, IH. Qed.

Lemma set_from_length seen l : (length (set_from seen l) ≤ length l)%nat.
Proof.
  revert seen. induction l as [|x l IH]; intros seen; simpl; [lia|].
  destruct (decide (x ∈ seen)); simpl; [specialize (IH seen)|specialize (IH (x :: seen))]; lia.
Qed.

Lemma filter_Boolean_length l : (length (filter_Boolean l) ≤ length l)%nat.
Proof. apply List.filter_length_le. Qed.

Lemma candidateImageUris_length rt v : (length (candidateImageUris rt v) ≤ 5)%nat.
Proof.
  unfold candidateImageUris. destruct (negb (truthy v)); [simpl; lia|].
  cbv zeta. rewrite length_map.
  etrans; [apply set_from_length|]. etrans; [apply filter_Boolean_length|]. done.
Qed.

(** X2. [candidateImageUris] returns at most five URLs whatever it is
    given, and does not see the case of a symbol: a symbol and its
    upper-cased form have the same candidates. *)
Theorem candidateImageUris_case_blind (rt : Runtime) :
  (∀ v, (length (candidateImageUris rt v) ≤ 5)%nat)
  ∧ (∀ s, candidateImageUris rt (JString s) =
          candidateImageUris rt (JString (toUpperCase s))).
Proof.
  split; [apply candidateImageUris_length|].
  intros s. unfold candidateImageUris. simpl.
  rewrite toUpperCase_idemp. by destruct s.
Qed.

(** X3. A cell of the home grids hands [StockLogo] the single [uri] of
    the stock.  An empty [uri] counts as none; otherwise the logo shows
    that image when it loads and the bundled placeholder after one error.
    A non-empty [uris] list always takes precedence over [uri]. *)
Theorem StockLogo_single_uri (loads : string → bool) (u : string) :
  candidates {| uri := Some u; uris := None |} = (if String.eqb u "" then [] else [u])
  ∧ candidates {| uri := Some u; uris := Some [] |} = (if String.eqb u "" then [] else [u])
  ∧ render loads (candidates {| uri := Some u; uris := None |}) 1 initial =
      Some (if (negb (String.eqb u "") && loads u)%bool then Remote (Some u) else Fallback)
  ∧ (∀ l, l ≠ [] → candidates {| uri := Some u; uris := Some l |} = l).
Proof.
  assert (candidates {| uri := Some u; uris := None |}
          = if String.eqb u "" then [] else [u]) as Hc.
  { unfold candidates. simpl. by destruct (String.eqb u ""). }
  split; [exact Hc|]. split; [exact Hc|]. split.
  - rewrite Hc. destruct (String.eqb u ""); simpl; [reflexivity|].
    unfold src. simpl. destruct (loads u); reflexivity.
  - intros l Hl. unfold candidates. simpl. destruct l; [done|reflexivity].
Qed.

End MoreLogoFacts.

Module BudgetFacts.
Import Logo Explore Vocabulary StringFacts AsyncFacts Counting Budget
       MoreLogoFacts.

Lemma count_app p l1 l2 : count p (l1 ++ l2) = (count p l1 + count p l2)%nat.
Proof. unfold count. by rewrite List.filter_app, length_app. Qed.

Lemma count_le_length p l : (count p l ≤ length l)%nat.
Proof. apply List.filter_length_le. Qed.

Lemma count_concat p n evs :
  Forall (λ ev, (count p ev ≤ n)%nat) evs →
  (count p (concat evs) ≤ n * length evs)%nat.
Proof.
  induction 1 as [|ev evs Hev _ IH]; simpl; [unfold count; simpl; lia|].
  rewrite count_app. lia.
Qed.

Lemma Forall_concat {A} (P : A → Prop) (ls : list (list A)) :
  Forall (Forall P) ls → Forall P (concat ls).
Proof. induction 1; simpl; [constructor|]. by apply Forall_app. Qed.

(** The log of a batch is the log before it, followed by what each member
    logged, member by member. *)
Lemma Promise_all_map_trace {A B} (f : A → IO B) (M : A → list Event → Prop) xs :
  (∀ x log, ∃ ev, snd (f x log) = log ++ ev ∧ M x ev) →
  ∀ log, ∃ evs, snd (Promise_all_map f xs log) = log ++ concat evs
                ∧ Forall2 M xs evs.
Proof.
  intros Hf. induction xs as [|x xs IH]; intros log.
  - exists []. simpl. split; [by rewrite app_nil_r|constructor].
  - rewrite Promise_all_map_log.
    destruct (Hf x log) as (ev & -> & HM).
    destruct (IH (log ++ ev)) as (evs & -> & Hall).
    exists (ev :: evs). simpl. split; [by rewrite app_assoc|by constructor].
Qed.

Lemma Forall2_right {A B} (M : A → B → Prop) (Q : B → Prop) xs ys :
  Forall2 M xs ys → (∀ x y, M x y → Q y) → Forall Q ys ∧ length ys = length xs.
Proof.
  induction 1 as [|x y xs ys Hxy _ IH]; intros HQ; [by split|].
  destruct (IH HQ) as [H1 H2]. split; [constructor; eauto|simpl; lia].
Qed.

(** *** [prefetchImages] *)

Lemma prefetch_first3_events net cs log :
  ∃ ev, snd (prefetch_first3 net cs log) = log ++ ev
        ∧ (count is_prefetch ev ≤ length cs)%nat
        ∧ Forall (λ e, is_prefetch e = true ∨ e = EvSleep 120) ev.
Proof.
  revert log. induction cs as [|c cs IH]; intros log; simpl.
  - exists []. unfold ret. simpl. rewrite app_nil_r. repeat split; [done|constructor].
  - unfold bind at 1. rewrite LogoFacts.Image_prefetch_caught.
    destruct (prefetch_ok net c).
    + exists [EvPrefetch c]. split; [reflexivity|]. split; [unfold count; simpl; lia|].
      repeat constructor.
    + unfold bind, sleep, call.
      destruct (IH ((log ++ [EvPrefetch c]) ++ [EvSleep 120])) as (ev & -> & Hn & Hall).
      exists (EvPrefetch c :: EvSleep 120 :: ev). split; [by rewrite <- !app_assoc|].
      split.
      * change (EvPrefetch c :: EvSleep 120 :: ev)
          with ([EvPrefetch c; EvSleep 120] ++ ev).
        rewrite count_app. unfold count at 1. simpl. lia.
      * constructor; [by left|]. constructor; [by right|done].
Qed.

Lemma prefetchImages_item_events rt net item log :
  ∃ ev, snd (prefetchImages_item rt net item log) = log ++ ev ∧ warm_up ev.
Proof.
  unfold prefetchImages_item, bind, lift.
  destruct (result_symbol item) as [sym|]; simpl.
  2:{ exists []. rewrite app_nil_r. repeat split; [unfold count; simpl; lia|constructor]. }
  destruct (negb (truthy sym)); simpl.
  { exists []. rewrite app_nil_r. repeat split; [unfold count; simpl; lia|constructor]. }
  destruct (prefetch_first3_events net (take 3 (candidateImageUris rt sym)) log)
    as (ev & -> & Hn & Hall).
  exists ev. split; [done|]. split; [|done].
  rewrite length_take in Hn. lia.
Qed.

(** X4. Warming up the logos of the search results never throws, issues
    at most three prefetches per result, and apart from prefetches only
    ever waits 120 ms. *)
Theorem prefetchImages_budget
    (rt : Runtime) (net : Network) (results : list JsValue) (log : list Event) :
  ∃ events,
    prefetchImages rt net results log = (Normal tt, log ++ events)
    ∧ (count is_prefetch events ≤ 3 * length results)%nat
    ∧ Forall (λ e, is_prefetch e = true ∨ e = EvSleep 120) events.
Proof.
  destruct (Promise_all_map_trace (prefetchImages_item rt net) (λ _, warm_up) results
              (prefetchImages_item_events rt net) log) as (evs & Hlog & Hall).
  destruct (Forall2_right _ warm_up _ _ Hall (λ _ _ H, H)) as [Hw Hlen].
  exists (concat evs). split.
  - unfold prefetchImages, try_catch, bind, ret.
    destruct (Promise_all_map (prefetchImages_item rt net) results log) as [[us|e] l];
      simpl in Hlog; by rewrite Hlog.
  - split.
    + rewrite <- Hlen. apply count_concat. eapply Forall_impl; [exact Hw|]. by intros ? [].
    + apply Forall_concat. eapply Forall_impl; [exact Hw|]. by intros ? [].
Qed.

(** *** [updateStockImages] *)

Lemma first_prefetched_events net cs log :
  ∃ ev, snd (first_prefetched net cs log) = log ++ ev
        ∧ (length ev ≤ length cs)%nat
        ∧ Forall (λ e, is_prefetch e = true) ev.
Proof.
  revert log. induction cs as [|c cs IH]; intros log; simpl.
  - exists []. unfold ret. simpl. rewrite app_nil_r. repeat split; [done|constructor].
  - unfold bind at 1. rewrite LogoFacts.Image_prefetch_caught.
    destruct (prefetch_ok net c).
    + exists [EvPrefetch c]. split; [reflexivity|]. split; [simpl; lia|].
      repeat constructor.
    + destruct (IH (log ++ [EvPrefetch c])) as (ev & -> & Hn & Hall).
      exists (EvPrefetch c :: ev). split; [by rewrite <- app_assoc|].
      split; [simpl; lia|by constructor].
Qed.

Lemma updateStockImages_item_events rt net stock log :
  ∃ ev, snd (updateStockImages_item rt net stock log) = log ++ ev ∧ probes ev.
Proof.
  unfold updateStockImages_item, bind.
  destruct (first_prefetched_events net (candidateImageUris rt (symbol stock)) log)
    as (ev & Hlog & Hn & Hall).
  destruct (first_prefetched net (candidateImageUris rt (symbol stock)) log)
    as [[[url|]|e] l]; simpl in *; subst l; exists ev; (split; [reflexivity|]);
    (split; [|done]); pose proof (candidateImageUris_length rt (symbol stock)); lia.
Qed.

Lemma updateStockImages_run rt net stocks log :
  ∃ events,
    updateStockImages rt net stocks log =
      (Normal (List.map (decorated rt net) stocks), log ++ events)
    ∧ (length events ≤ 5 * length stocks)%nat
    ∧ Forall (λ e, is_prefetch e = true) events.
Proof.
  unfold updateStockImages.
  destruct (Promise_all_map_total (updateStockImages_item rt net) (decorated rt net)
              stocks (λ x l _, LogoFacts.updateStockImages_item_run rt net x l) log)
    as [log' Hrun].
  destruct (Promise_all_map_trace (updateStockImages_item rt net) (λ _, probes) stocks
              (updateStockImages_item_events rt net) log) as (evs & Hlog & Hall).
  destruct (Forall2_right _ probes _ _ Hall (λ _ _ H, H)) as [Hw Hlen].
  rewrite Hrun in Hlog. simpl in Hlog. subst log'.
  exists (concat evs). split; [done|]. split.
  - rewrite <- Hlen. clear -Hw. induction Hw as [|ev evs [Hn _] _ IH]; simpl; [lia|].
    rewrite length_app. lia.
  - apply Forall_concat. eapply Forall_impl; [exact Hw|]. by intros ? [].
Qed.

(** X5. [updateStockImages] never throws, returns the stocks in their
    order with every field but the image unchanged, and issues at most five
    prefetches per stock and no other call. *)
Theorem updateStockImages_budget
    (rt : Runtime) (net : Network) (stocks : list Stock) (log : list Event) :
  ∃ stocks' events,
    updateStockImages rt net stocks log = (Normal stocks', log ++ events)
    ∧ Forall2 (λ stock stock',
                 name stock' = name stock ∧ price stock' = price stock
                 ∧ symbol stock' = symbol stock ∧ change stock' = change stock)
              stocks stocks'
    ∧ (length events ≤ 5 * length stocks)%nat
    ∧ Forall (λ e, is_prefetch e = true) events.
Proof.
  destruct (updateStockImages_run rt net stocks log) as (events & Hrun & Hn & Hall).
  exists (List.map (decorated rt net) stocks), events.
  split; [done|]. split; [|done].
  apply Forall2_map_r. intros stock _. unfold decorated.
  destruct (List.find _ _); done.
Qed.

End BudgetFacts.

Module HomeFacts.
Import Logo Explore Home Vocabulary StringFacts AsyncFacts Counting Outcomes
       MoreLogoFacts BudgetFacts JsFacts.

Lemma map_throwing_length {A B} (f : A → Completion B) xs ys :
  map_throwing f xs = Normal ys → length ys = length xs.
Proof.
  revert ys. induction xs as [|x xs IH]; intros ys; simpl.
  - by intros [= <-].
  - intros H. apply bind_Normal_inv in H as (y & _ & H).
    apply bind_Normal_inv in H as (ys' & Hys & H). injection H as <-.
    simpl. f_equal. by apply IH.
Qed.

Lemma map_throwing_throw {A B} (f : A → Completion B) xs x :
  x ∈ xs → is_normal (f x) = false → is_normal (map_throwing f xs) = false.
Proof.
  induction 1 as [x xs|x y xs _ IH]; intros Hx; simpl.
  - destruct (f x); [discriminate|reflexivity].
  - destruct (f y); [|reflexivity]. simpl. specialize (IH Hx).
    destruct (map_throwing f xs); [discriminate|reflexivity].
Qed.

Lemma first_four_length v stocks :
  first_four v = Normal stocks → (length stocks ≤ 4)%nat.
Proof.
  unfold first_four. destruct (js_or v (JArray [])); try discriminate.
  intros H. apply map_throwing_length in H. rewrite H, length_take. lia.
Qed.

Lemma mapped_length data g l :
  mapped data = Normal (g, l) → (length g ≤ 4)%nat ∧ (length l ≤ 4)%nat.
Proof.
  unfold mapped. intros H.
  apply bind_Normal_inv in H as (g' & Hg & H).
  apply bind_Normal_inv in H as (l' & Hl & H). injection H as <- <-.
  apply bind_Normal_inv in Hg as (v & _ & Hg).
  apply bind_Normal_inv in Hl as (w & _ & Hl).
  split; eapply first_four_length; eauto.
Qed.

(** What [fetchData] comes to. *)
Lemma fetchData_run rt net st log :
  ∃ events,
    fetchData rt net st log =
      (Normal match getCached_outcome net ≫= mapped with
              | Normal (g, l) =>
                  {| gainers := List.map (decorated rt net) g;
                     losers := List.map (decorated rt net) l;
                     loading := false; error := "" |}
              | Throw _ => failed_state
              end,
       log ++ EvGetCached :: events)
    ∧ Forall (λ e, is_prefetch e = true) events
    ∧ match getCached_outcome net ≫= mapped with
      | Normal (g, l) => (length events ≤ 5 * (length g + length l))%nat
      | Throw _ => events = []
      end.
Proof.
  unfold fetchData. unfold bind at 1. unfold try_catch.
  unfold bind at 1. unfold getCachedTopGainersLosers, call.
  destruct (getCached_outcome net) as [data|e]; cbn [mbind Completion_bind].
  2:{ exists []. split; [reflexivity|]. split; [constructor|reflexivity]. }
  unfold mapped. unfold bind at 1. unfold lift at 1.
  destruct (get_prop data "top_gainers" ≫= first_four) as [g|e];
    cbn [mbind Completion_bind].
  2:{ exists []. split; [reflexivity|]. split; [constructor|reflexivity]. }
  unfold bind at 1. unfold lift at 1.
  destruct (get_prop data "top_losers" ≫= first_four) as [l|e];
    cbn [mbind Completion_bind].
  2:{ exists []. split; [reflexivity|]. split; [constructor|reflexivity]. }
  unfold bind at 1.
  destruct (updateStockImages_run rt net g (log ++ [EvGetCached])) as (ev1 & -> & Hn1 & Hp1).
  unfold bind at 1.
  destruct (updateStockImages_run rt net l ((log ++ [EvGetCached]) ++ ev1))
    as (ev2 & -> & Hn2 & Hp2).
  exists (ev1 ++ ev2). split.
  - unfold ret. simpl. f_equal. rewrite <- !app_assoc. reflexivity.
  - split; [by apply Forall_app|]. rewrite length_app. lia.
Qed.

(** X6. [fetchData] never throws and always ends with [loading] off,
    after exactly one snapshot call.  Each list holds at most four stocks.
    It is all or nothing: either the error is empty, or it is the fixed
    failure text, both lists are empty and no logo was prefetched.  At most
    forty prefetches follow the snapshot call, and no other call. *)
Theorem fetchData_all_or_nothing
    (rt : Runtime) (net : Network) (st : HomeState) (log : list Event) :
  ∃ st' events,
    fetchData rt net st log = (Normal st', log ++ EvGetCached :: events)
    ∧ loading st' = false
    ∧ (length (gainers st') ≤ 4)%nat ∧ (length (losers st') ≤ 4)%nat
    ∧ (error st' = ""
       ∨ (error st' = FAILED ∧ gainers st' = [] ∧ losers st' = [] ∧ events = []))
    ∧ Forall (λ e, is_prefetch e = true) events
    ∧ (length events ≤ 40)%nat.
Proof.
  destruct (fetchData_run rt net st log) as (events & Hrun & Hp & Hn).
  eexists _, events. split; [exact Hrun|].
  destruct (getCached_outcome net ≫= mapped) as [[g l]|e] eqn:Hm.
  - assert (∃ data, mapped data = Normal (g, l)) as [data Hd].
    { destruct (getCached_outcome net); [eauto|discriminate]. }
    apply mapped_length in Hd as [Hg Hl]. simpl.
    rewrite !length_map. repeat split; try done; [by left|lia].
  - subst events. simpl. repeat split; try done; try lia. right. done.
Qed.

(** X7. [fetchData] reads the first four records of each list only: the
    snapshot cut to four gainers and four losers gives the same screen,
    whatever the later records are. *)
Theorem fetchData_first_four_only
    (rt : Runtime) (net : Network) (g l : list JsValue)
    (st : HomeState) (log : list Event) :
  fst (fetchData rt (with_snapshot net (Scenario.movers g l)) st log) =
  fst (fetchData rt (with_snapshot net (Scenario.movers (take 4 g) (take 4 l))) st log).
Proof.
  destruct (fetchData_run rt (with_snapshot net (Scenario.movers g l)) st log) as (ev1 & -> & _).
  destruct (fetchData_run rt (with_snapshot net (Scenario.movers (take 4 g) (take 4 l))) st log)
    as (ev2 & -> & _).
  cbn [fst getCached_outcome with_snapshot mbind Completion_bind].
  assert (mapped (Scenario.movers (take 4 g) (take 4 l)) = mapped (Scenario.movers g l)) as ->.
  { unfold mapped, Scenario.movers, first_four. simpl. by rewrite !take_take. }
  reflexivity.
Qed.

(** X8. What makes [fetchData] fail: a rejected snapshot call, a
    snapshot that is [null] or [undefined], and a [null] or [undefined]
    record among the first four of either list; in each case nothing is
    prefetched.  A snapshot object without the two lists is no failure: the
    lists are empty, the error also, and the boxes show their no-data
    text. *)
Theorem fetchData_failures
    (rt : Runtime) (net : Network) (st : HomeState) (log : list Event) :
  (∀ e, getCached_outcome net = Throw e →
        fetchData rt net st log = (Normal failed_state, log ++ [EvGetCached]))
  ∧ (∀ data, getCached_outcome net = Normal data → loose_null data = true →
        fetchData rt net st log = (Normal failed_state, log ++ [EvGetCached]))
  ∧ (∀ data key l r,
        getCached_outcome net = Normal data →
        key = "top_gainers" ∨ key = "top_losers" →
        get_prop data key = Normal (JArray l) →
        r ∈ take 4 l → loose_null r = true →
        fetchData rt net st log = (Normal failed_state, log ++ [EvGetCached]))
  ∧ (∀ fields,
        getCached_outcome net = Normal (JObject fields) →
        assoc "top_gainers" fields = None → assoc "top_losers" fields = None →
        fetchData rt net st log =
          (Normal {| gainers := []; losers := []; loading := false; error := "" |},
           log ++ [EvGetCached])
        ∧ box false [] = NoData).
Proof.
  destruct (fetchData_run rt net st log) as (events & Hrun & _ & Hn).
  assert (is_normal (getCached_outcome net ≫= mapped) = false →
          fetchData rt net st log = (Normal failed_state, log ++ [EvGetCached])) as Hfail.
  { intros H. destruct (getCached_outcome net ≫= mapped) as [[]|]; [discriminate|].
    subst events. exact Hrun. }
  split; [|split; [|split]].
  - intros e He. apply Hfail. by rewrite He.
  - intros data Hd Hnull. apply Hfail. rewrite Hd. simpl.
    destruct data; try discriminate; reflexivity.
  - intros data key l r Hd Hkey Hl Hr Hnull. apply Hfail. rewrite Hd.
    cbn [mbind Completion_bind]. unfold mapped.
    assert (is_normal (first_four (JArray l)) = false) as Hthrow.
    { unfold first_four. simpl. apply (map_throwing_throw mapStock _ r Hr).
      by rewrite ExploreFacts.mapStock_nullish. }
    destruct Hkey as [-> | ->]; rewrite Hl; cbn [mbind Completion_bind].
    + destruct (first_four (JArray l)); [discriminate|reflexivity].
    + destruct (get_prop data "top_gainers" ≫= first_four); [|reflexivity].
      cbn [mbind Completion_bind].
      destruct (first_four (JArray l)); [discriminate|reflexivity].
  - intros fields Hd Hg Hl. split; [|reflexivity].
    rewrite Hd in Hrun, Hn. cbn [mbind Completion_bind] in Hrun, Hn.
    unfold mapped in Hrun, Hn. simpl in Hrun, Hn. rewrite Hg, Hl in Hrun, Hn.
    simpl in Hrun, Hn.
    destruct events; [exact Hrun|simpl in Hn; lia].
Qed.


End HomeFacts.

Module SearchFacts.
Import Logo Explore Home Search Vocabulary Counting JsFacts.

Lemma length_pos_nonempty (s : string) :
  (0 <? Z.of_nat (String.length s)) = negb (String.eqb s "").
Proof. by destruct s. Qed.

(** X10. [debouncedSearch] never throws and calls the upstream search at
    most once.  An error text never comes with results; after a non-empty
    query the spinner is off; the empty query touches neither the spinner
    nor the network. *)
Theorem debouncedSearch_settles
    (net : Network) (query : string) (st : SearchState) (log : list Event) :
  ∃ st' events,
    debouncedSearch net query st log = (Normal st', log ++ events)
    ∧ (events = [] ∨ events = [EvSearchTicker query])
    ∧ (searchError st' ≠ "" → searchResults st' = [])
    ∧ (query ≠ "" → searchLoading st' = false)
    ∧ (query = "" → searchLoading st' = searchLoading st ∧ events = []).
Proof.
  destruct (decide (query = "")) as [->|Hq].
  - exists {| searchResults := []; searchLoading := searchLoading st; searchError := "" |}, [].
    rewrite app_nil_r. split; [reflexivity|]. simpl.
    split; [by left|]. split; [done|]. split; [done|]. done.
  - rewrite (ExploreFacts.debouncedSearch_nonempty net query st log Hq).
    eexists _, _. split; [reflexivity|]. split; [by right|].
    destruct (searchTicker_outcome net query); simpl; repeat split; try done.
Qed.

(** X11. With the search open on a non-empty text, what the overlay
    shows once the search effect has run is decided by the upstream answer
    alone: the error text on a rejection, the rows of a non-empty match
    list, and no-results otherwise; never the spinner. *)
Theorem overlay_after_search
    (net : Network) (ctx : Context) (st : SearchState) (log : list Event)
    (Hopen : showSearch ctx = true) (Htext : searchValue ctx ≠ "") :
  ∃ st',
    fst (searchEffect net ctx st log) = Normal st'
    ∧ overlay ctx st' =
        match searchTicker_outcome net (searchValue ctx) with
        | Throw _ => ErrorText "Search failed."
        | Normal response =>
            match match_list response with
            | Some (row :: rows) => Results (row :: rows)
            | _ => NoResults
            end
        end.
Proof.
  unfold searchEffect.
  rewrite (ExploreFacts.debouncedSearch_nonempty net _ st log Htext).
  eexists. split; [reflexivity|]. unfold overlay. rewrite Hopen, length_pos_nonempty.
  apply String.eqb_neq in Htext. rewrite Htext. simpl.
  destruct (searchTicker_outcome net (searchValue ctx)) as [response|]; [|reflexivity].
  simpl. destruct (match_list response) as [[|row rows]|]; reflexivity.
Qed.

Lemma overlay_after_search_witness :
  overlay {| searchValue := "ibm"; showSearch := true |}
    {| searchResults := [JObject [("1. symbol", JString "IBM")]];
       searchLoading := false; searchError := "" |}
  = Results [JObject [("1. symbol", JString "IBM")]].
Proof.
  destruct (overlay_after_search Demo.net {| searchValue := "ibm"; showSearch := true |}
              Demo.idle [] eq_refl) as (st' & Hrun & Hview); [discriminate|].
  injection Hrun as <-. exact Hview.
Defined.

(** X12. The header icon of an open search closes it and clears the text,
    after which the overlay is hidden and the effects make no call.  The
    backdrop only closes: the text stays, and opening the search again
    searches for it once more. *)
Theorem header_icon_and_backdrop
    (net : Network) (ctx : Context) (st : SearchState) (log : list Event) :
  (showSearch ctx = true →
     headerIconPress ctx = {| searchValue := ""; showSearch := false |}
     ∧ overlay (headerIconPress ctx) st = Hidden
     ∧ searchEffect net (headerIconPress ctx) st log =
         (Normal {| searchResults := []; searchLoading := searchLoading st;
                    searchError := "" |}, log)
     ∧ openEffect net (headerIconPress ctx) st log = (Normal st, log))
  ∧ (overlay (closeSearch ctx) st = Hidden
     ∧ searchValue (closeSearch ctx) = searchValue ctx
     ∧ headerIconPress (closeSearch ctx) =
         {| searchValue := searchValue ctx; showSearch := true |}
     ∧ (searchValue ctx ≠ "" →
        snd (openEffect net (headerIconPress (closeSearch ctx)) st log) =
          log ++ [EvSearchTicker (searchValue ctx)])).
Proof.
  split.
  - intros Hopen. unfold headerIconPress. rewrite Hopen.
    repeat split; reflexivity.
  - split; [reflexivity|]. split; [reflexivity|]. split; [reflexivity|].
    intros Htext. unfold openEffect. simpl. rewrite length_pos_nonempty.
    apply String.eqb_neq in Htext as Hb. rewrite Hb. simpl.
    by rewrite ExploreFacts.debouncedSearch_nonempty.
Qed.

Lemma get_prop_total s :
  loose_null s = false → ∃ f, ∀ k, get_prop s k = Normal (f k).
Proof.
  destruct s; try discriminate; intros _;
    try (exists (λ _, JUndefined); reflexivity).
  exists (λ k, default JUndefined (assoc k fields)). reflexivity.
Qed.

(** X13. The name and the symbol of a mapped stock are set together or
    not at all (then both are the empty string); a set [ticker] is always
    the symbol, a set [name] always the name. *)
Theorem mapStock_name_and_symbol (s : JsValue) (stock : Stock) :
  mapStock s = Normal stock →
  truthy (name stock) = truthy (symbol stock)
  ∧ (truthy (name stock) = false → name stock = JString "" ∧ symbol stock = JString "")
  ∧ (∀ t, get_prop s "ticker" = Normal t → truthy t = true → symbol stock = t)
  ∧ (∀ n, get_prop s "name" = Normal n → truthy n = true → name stock = n).
Proof.
  intros H. destruct (loose_null s) eqn:Hs.
  { rewrite ExploreFacts.mapStock_nullish in H by done. discriminate. }
  destruct (get_prop_total s Hs) as [f Hf].
  unfold mapStock in H.
  apply bind_Normal_inv in H as (n & Hn & H).
  apply bind_Normal_inv in H as (p & _ & H).
  apply bind_Normal_inv in H as (y & Hy & H).
  apply bind_Normal_inv in H as (c & _ & H). injection H as <-.
  cbn [name symbol]. cbn [first_truthy] in Hn, Hy.
  rewrite !Hf in Hn, Hy. rewrite !Hf. cbn [mbind Completion_bind] in Hn, Hy.
  destruct (truthy (f "name")) eqn:En, (truthy (f "symbol")) eqn:Es,
           (truthy (f "ticker")) eqn:Et;
    injection Hn as <-; injection Hy as <-;
    rewrite ?En, ?Es, ?Et; repeat split; try done;
    try (intros ? [= <-] ?; congruence).
Qed.

Lemma mapStock_name_and_symbol_witness :
  ∃ stock, mapStock (Scenario.record "A" "1") = Normal stock
           ∧ symbol stock = JString "A".
Proof.
  eexists. split; [reflexivity|].
  exact (proj1 (proj2 (proj2 (mapStock_name_and_symbol (Scenario.record "A" "1") _
                                eq_refl)))
           (JString "A") eq_refl eq_refl).
Defined.

End SearchFacts.

Module WatchlistScreenFacts.
Import Watchlist WatchlistView Vocabulary Counting JsFacts States.







(** X16. Deleting a group a second time changes nothing, screen and
    store included, and two deletions give the same screen and store in
    either order. *)
Theorem deleteGroup_again_and_swapped
    (JSON_stringify : gmap string (list string) → string)
    (g1 g2 : string) (st : Screen)
    (Hdb : available (storage st) = true) :
  ∃ once,
    deleteGroup JSON_stringify g1 Delete st = Normal once
    ∧ deleteGroup JSON_stringify g1 Delete once = Normal once
    ∧ (deleteGroup JSON_stringify g1 Delete st ≫= deleteGroup JSON_stringify g2 Delete)
      = (deleteGroup JSON_stringify g2 Delete st ≫= deleteGroup JSON_stringify g1 Delete).
Proof.
  unfold deleteGroup, deleteGroup_onPress, setItem. rewrite Hdb. simpl.
  eexists. split; [reflexivity|]. simpl. split.
  - f_equal. f_equal.
    + by rewrite delete_delete_eq.
    + destruct (decide (selectedGroup st = Some g1)) as [E|E];
        [by rewrite decide_False|by rewrite decide_False].
    + f_equal. rewrite delete_delete_eq. by rewrite insert_insert_eq.
  - f_equal. f_equal.
    + apply delete_delete.
    + destruct (decide (selectedGroup st = Some g1)) as [E1|E1];
        destruct (decide (selectedGroup st = Some g2)) as [E2|E2];
        repeat case_decide; congruence.
    + f_equal. rewrite !insert_insert_eq. f_equal. f_equal. apply delete_delete.
Qed.

Lemma deleteGroup_again_and_swapped_witness :
  ∃ once, deleteGroup Demo.JSON_stringify "Tech" Delete Demo.screen = Normal once
          ∧ deleteGroup Demo.JSON_stringify "Tech" Delete once = Normal once.
Proof.
  destruct (deleteGroup_again_and_swapped Demo.JSON_stringify "Tech" "Energy"
              Demo.screen eq_refl) as (once & H1 & H2 & _).
  exists once. split; [exact H1|exact H2].
Defined.

End WatchlistScreenFacts.

Module DetailFacts.
Import Watchlist Vocabulary Counting JsFacts AsyncFacts StringFacts WatchlistFacts
       MoreLogoFacts Requests.
Import BudgetFacts.

Lemma Promise_all_map_results {A B} (f : A → IO B) xs bs log log' :
  Promise_all_map f xs log = (Normal bs, log') →
  Forall2 (λ x b, ∃ l, fst (f x l) = Normal b) xs bs.
Proof.
  revert bs log log'. induction xs as [|x xs IH]; intros bs log log'; simpl.
  - unfold ret. intros [= <- _]. constructor.
  - destruct (f x log) as [[b|e] log1] eqn:Hx; [|intros [=]].
    destruct (Promise_all_map f xs log1) as [[bs'|e] log2] eqn:Hxs; [|intros [=]].
    intros [= <- _]. constructor; [exists log; by rewrite Hx|by eapply IH].
Qed.

Lemma Promise_all_map_trace_ok {A B} (f : A → IO B)
    (M N : A → list Event → Prop) xs :
  (∀ x log, ∃ ev, snd (f x log) = log ++ ev ∧ M x ev
                  ∧ (is_normal (fst (f x log)) = true → N x ev)) →
  ∀ log, ∃ evs, snd (Promise_all_map f xs log) = log ++ concat evs
                ∧ Forall2 M xs evs
                ∧ (is_normal (fst (Promise_all_map f xs log)) = true →
                   Forall2 N xs evs).
Proof.
  intros Hf. induction xs as [|x xs IH]; intros log.
  - exists []. simpl. rewrite app_nil_r. repeat split; constructor.
  - destruct (Hf x log) as (ev & Hev & HM & HN).
    destruct (IH (log ++ ev)) as (evs & Hevs & HMs & HNs).
    exists (ev :: evs). simpl.
    destruct (f x log) as [[b|e] log1]; simpl in *; subst log1.
    + destruct (Promise_all_map f xs (log ++ ev)) as [[bs|e] log2]; simpl in *;
        subst log2; rewrite <- app_assoc;
        (split; [done|split; [by constructor|]]).
      * intros _. constructor; auto.
      * discriminate.
    + rewrite Hevs, <- app_assoc. split; [done|split; [by constructor|discriminate]].
Qed.

Lemma count_concat_one p (evs : list (list Event)) :
  Forall (λ ev, count p ev = 1%nat) evs → count p (concat evs) = length evs.
Proof.
  induction 1 as [|ev evs Hev _ IH]; simpl; [done|]. rewrite count_app. lia.
Qed.

Lemma loadDetails_item_events rt net cached sym log :
  ∃ ev, snd (loadDetails_item rt net cached sym log) = log ++ ev
        ∧ tile_events sym ev
        ∧ (is_normal (fst (loadDetails_item rt net cached sym log)) = true →
           count is_prefetch ev = 1%nat).
Proof.
  destruct (cached_price rt cached (toUpperCase sym)) as [p|e] eqn:Hp.
  - rewrite (loadDetails_item_run _ _ _ _ _ _ Hp). simpl.
    eexists. split; [reflexivity|]. unfold tile_events.
    destruct (needs_quote p); simpl; split; auto.
  - rewrite (loadDetails_item_throw _ _ _ _ _ _ Hp). simpl.
    exists []. rewrite app_nil_r. split; [done|]. split; [by left|discriminate].
Qed.

Lemma quoted_price_truthy rt net upper p :
  truthy p = true → truthy (quoted_price rt net upper p) = true.
Proof.
  intros Hp. unfold quoted_price.
  destruct (fetch_outcome net _) as [res|]; [|done].
  destruct (ok res); [|done]. destruct (json res) as [[]|]; try done.
  destruct (truthy (default _ _)); [|done].
  destruct (get_prop _ _) as [q|]; [|done]. destruct (negb _); [|done].
  reflexivity.
Qed.

Lemma loadDetails_item_tile rt net cached sym t log :
  fst (loadDetails_item rt net cached sym log) = Normal t →
  symbol t = sym ∧ image t = logo_url (toUpperCase sym) ∧ truthy (price t) = true
  ∧ tile_source t = Logo.Remote (Some (logo_url (toUpperCase sym))).
Proof.
  destruct (cached_price rt cached (toUpperCase sym)) as [p|e] eqn:Hp.
  - rewrite (loadDetails_item_run _ _ _ _ _ _ Hp). simpl. intros [= <-].
    simpl. repeat split.
    destruct (cached_price_truthy _ _ _ _ Hp) as [Ht _].
    destruct (needs_quote p); [by apply quoted_price_truthy|done].
  - by rewrite (loadDetails_item_throw _ _ _ _ _ _ Hp).
Qed.

Lemma tile_events_count sym ev :
  tile_events sym ev →
  (count is_fetch ev ≤ 1)%nat ∧ (count is_prefetch ev ≤ 1)%nat
  ∧ Forall (tile_request sym) ev.
Proof.
  unfold tile_request.
  intros [-> | [-> | ->]]; unfold count; simpl;
    (split; [lia|split; [lia|]]);
    repeat first [apply List.Forall_nil
                 |apply List.Forall_cons; [by (left + right)|]].
Qed.

Lemma loadDetails_run rt net symbols log :
  loadDetails rt net symbols log =
    Promise_all_map (loadDetails_item rt net (seen_snapshot net)) symbols
      (log ++ [EvGetCached]).
Proof.
  unfold loadDetails, seen_snapshot. io_unfold.
  by destruct (getCached_outcome net).
Qed.

(** X17. [loadDetails] calls the snapshot once, first, and then only
    asks for the quick quote and the logo of the upper-cased symbols of the
    group, with no more quotes and no more logos than the group has
    symbols.  When the batch resolves, it has
    prefetched one logo per symbol, and the tiles are those of the symbols,
    in order, each with its remote logo and a non-empty price. *)
Theorem loadDetails_requests (rt : Runtime) (net : Network)
    (symbols : list string) (log : list Event) :
  ∃ events,
    snd (loadDetails rt net symbols log) = log ++ EvGetCached :: events
    ∧ Forall (λ e, ∃ sym, sym ∈ symbols ∧ tile_request sym e) events
    ∧ (count is_fetch events ≤ length symbols)%nat
    ∧ (count is_prefetch events ≤ length symbols)%nat
    ∧ ∀ tiles, fst (loadDetails rt net symbols log) = Normal tiles →
        count is_prefetch events = length symbols
        ∧ Forall2 (λ sym t,
                     symbol t = sym
                     ∧ image t = logo_url (toUpperCase sym)
                     ∧ truthy (price t) = true
                     ∧ tile_source t = Logo.Remote (Some (image t)))
            symbols tiles.
Proof.
  rewrite loadDetails_run.
  set (cached := seen_snapshot net).
  set (run := Promise_all_map (loadDetails_item rt net cached) symbols
                (log ++ [EvGetCached])).
  destruct (Promise_all_map_trace_ok (loadDetails_item rt net cached)
              tile_events (λ _ ev, count is_prefetch ev = 1%nat) symbols)
    with (log := log ++ [EvGetCached]) as (evs & Hlog & Hevs & Hok).
  { intros x l. apply loadDetails_item_events. }
  fold run in Hlog, Hok.
  exists (concat evs). rewrite Hlog.
  split; [by rewrite <- app_assoc|].
  assert (length evs = length symbols) as Hlen by (symmetry; by eapply Forall2_length).
  split; [|split; [|split]].
  - apply Forall_concat. clear -Hevs.
    induction Hevs as [|sym ev syms evs Hev _ IH]; [constructor|].
    constructor.
    + destruct (tile_events_count _ _ Hev) as (_ & _ & Hall).
      eapply Forall_impl; [exact Hall|]. intros e He. exists sym. split; [by left|done].
    + eapply Forall_impl; [exact IH|]. intros ev' Hev'.
      eapply Forall_impl; [exact Hev'|]. intros e (s & Hs & He). exists s.
      split; [by right|done].
  - rewrite <- Hlen, <- (Nat.mul_1_l (length evs)). apply count_concat.
    clear -Hevs. induction Hevs as [|sym ev syms evs Hev _ IH]; constructor; [|done].
    by destruct (tile_events_count _ _ Hev) as (? & _ & _).
  - rewrite <- Hlen, <- (Nat.mul_1_l (length evs)). apply count_concat.
    clear -Hevs. induction Hevs as [|sym ev syms evs Hev _ IH]; constructor; [|done].
    by destruct (tile_events_count _ _ Hev) as (_ & ? & _).
  - intros tiles Hrun. destruct run as [c log'] eqn:Hr. simpl in Hrun. subst c.
    unfold run in Hr.
    split.
    + rewrite <- Hlen. apply count_concat_one.
      specialize (Hok eq_refl). clear -Hok.
      induction Hok; constructor; auto.
    + apply Promise_all_map_results in Hr.
      eapply Forall2_impl; [exact Hr|]. intros sym t [l Ht].
      destruct (loadDetails_item_tile _ _ _ _ _ _ Ht) as (? & Hi & ? & ?).
      rewrite Hi. done.
Qed.

(** X18. The watchlist look-up does not see the case of a symbol: a
    symbol and its upper-cased form make the same requests and get the same
    image and price; only the label of the tile differs. *)
Theorem loadDetails_item_case_blind (rt : Runtime) (net : Network)
    (cached : JsValue) (sym : string) (log : list Event) :
  snd (loadDetails_item rt net cached sym log) =
    snd (loadDetails_item rt net cached (toUpperCase sym) log)
  ∧ fst (loadDetails_item rt net cached sym log) =
      (t ← fst (loadDetails_item rt net cached (toUpperCase sym) log);
       Normal (relabel sym t)).
Proof.
  destruct (cached_price rt cached (toUpperCase sym)) as [p|e] eqn:Hp.
  - rewrite (loadDetails_item_run _ _ _ sym _ _ Hp).
    rewrite (loadDetails_item_run _ _ _ (toUpperCase sym) p);
      [|by rewrite toUpperCase_idemp].
    rewrite toUpperCase_idemp. simpl. split; [done|].
    unfold tile_after, relabel. simpl. by rewrite toUpperCase_idemp.
  - rewrite (loadDetails_item_throw _ _ _ sym _ _ Hp).
    rewrite (loadDetails_item_throw _ _ _ (toUpperCase sym) e);
      [|by rewrite toUpperCase_idemp].
    done.
Qed.

Lemma find_upper_app upper gs ls r :
  find_upper upper gs = Normal r → r ≠ JUndefined →
  find_upper upper (gs ++ ls) = Normal r.
Proof.
  induction gs as [|s gs IH]; cbn [find_upper app]; [by intros [= <-]|].
  destruct (first_truthy s _ _) as [id|]; [|discriminate].
  cbn [mbind Completion_bind].
  destruct (call_toUpperCase id) as [u|]; [|discriminate].
  cbn [mbind Completion_bind].
  destruct (String.eqb u upper); [done|apply IH].
Qed.

Lemma find_upper_app_throw upper gs ls e :
  find_upper upper gs = Throw e → find_upper upper (gs ++ ls) = Throw e.
Proof.
  induction gs as [|s gs IH]; cbn [find_upper app]; [discriminate|].
  destruct (first_truthy s _ _) as [id|]; [|done].
  cbn [mbind Completion_bind].
  destruct (call_toUpperCase id) as [u|]; [|done].
  cbn [mbind Completion_bind].
  destruct (String.eqb u upper); [done|apply IH].
Qed.

Lemma find_upper_app_miss upper gs ls :
  find_upper upper gs = Normal JUndefined →
  find_upper upper (gs ++ ls) = find_upper upper ls.
Proof.
  induction gs as [|s gs IH]; cbn [find_upper app]; [done|].
  destruct (first_truthy s _ _) as [id|] eqn:Hid; [|discriminate].
  cbn [mbind Completion_bind].
  destruct (call_toUpperCase id) as [u|]; [|discriminate].
  cbn [mbind Completion_bind].
  destruct (String.eqb u upper); [|apply IH].
  intros [= ->]. discriminate Hid.
Qed.

Lemma cached_price_movers rt gs ls upper :
  cached_price rt (Scenario.movers gs ls) upper =
    (found ← find_upper upper (gs ++ ls);
     if truthy found then
       price ← first_truthy found ["price"; "close"; "last"] (JString "--");
       match price with
       | JNumber _ => Normal (JString ("$" +:+ Number_toFixed2 rt price))
       | _ => Normal price
       end
     else Normal (JString "--")).
Proof. reflexivity. Qed.

(** X19. The snapshot is scanned gainers first: once a gainer matches
    (or the scan of the gainers throws), the losers are not read, and the
    price does not depend on them; when no gainer matches the price is that
    of the scan of the losers. *)
Theorem gainers_before_losers (rt : Runtime) (gs ls : list JsValue) (upper : string) :
  match find_upper upper gs with
  | Normal JUndefined =>
      cached_price rt (Scenario.movers gs ls) upper
      = cached_price rt (Scenario.movers [] ls) upper
  | _ =>
      ∀ ls', cached_price rt (Scenario.movers gs ls) upper
             = cached_price rt (Scenario.movers gs ls') upper
  end.
Proof.
  destruct (find_upper upper gs) as [r|e] eqn:Hg.
  - assert (r ≠ JUndefined → ∀ ls', cached_price rt (Scenario.movers gs ls) upper
             = cached_price rt (Scenario.movers gs ls') upper) as Hhit.
    { intros Hr ls'. rewrite !cached_price_movers.
      by rewrite !(find_upper_app _ _ _ _ Hg Hr). }
    destruct r; try (apply Hhit; discriminate).
    rewrite !cached_price_movers. by rewrite (find_upper_app_miss _ _ _ Hg).
  - intros ls'. rewrite !cached_price_movers.
    by rewrite !(find_upper_app_throw _ _ _ _ Hg).
Qed.

End DetailFacts.
